(** * explainable_ai/metta_service.py

    Priority calculation for a region from four indicators (poverty index,
    project impact, environmental score, corruption risk): an optional local
    MeTTa run, the weighted Python formula as fallback, and the texts derived
    from the score.

    Python floats are IEEE 754 binary64 numbers: they are modelled by Rocq's
    primitive floats, whose operations are specified bit for bit by
    [SpecFloat] through the [FloatAxioms].  The [hyperon] package is not part
    of the repository: what one call of it does is a parameter of
    [calculate_priority]. *)

From Stdlib Require Import ZArith Lia Bool List Floats.
From stdpp Require Import gmap strings.

Set Warnings "-inexact-float".

Local Open Scope Z_scope.

(** ** The Python runtime the module relies on *)

(** *** Rich comparisons of floats: every comparison with a NaN is false. *)

Definition py_ge (a b : float) : bool := (b <=? a)%float.
Definition py_le (a b : float) : bool := (a <=? b)%float.
Definition py_gt (a b : float) : bool := (b <? a)%float.
Definition py_lt (a b : float) : bool := (a <? b)%float.

(** *** [max(a, b)] and [min(a, b)]: the first argument is kept unless the
    second one is strictly greater (resp. smaller).  The integer literals
    [10] and [100] of the source compare with floats by value, so they are the
    floats [10.0] and [100.0] here. *)

Definition py_max (a b : float) : float := if py_gt b a then b else a.
Definition py_min (a b : float) : float := if py_lt b a then b else a.

(** *** Decimal rounding.  [round_half_even_div a b] is the integer nearest to
    [a / b] for [0 < b], a tie going to the even neighbour. *)

Definition round_half_even_div (a b : Z) : Z :=
  let q := a / b in
  match 2 * (a mod b) ?= b with
  | Lt => q
  | Gt => q + 1
  | Eq => if Z.even q then q else q + 1
  end.

(** The integer nearest to [m * 2^e * 10^n], ties to even: the digits that
    the correctly rounded conversion to [n] decimals keeps. *)

Definition scaled_decimal (m : positive) (e : Z) (n : nat) : Z :=
  if 0 <=? e then Z.pos m * 2 ^ e * 10 ^ Z.of_nat n
  else round_half_even_div (Z.pos m * 10 ^ Z.of_nat n) (2 ^ (- e)).

(** The binary64 number nearest to [k / 10^n], with sign [s]. *)

Definition decimal_to_float (s : bool) (k : Z) (n : nat) : spec_float :=
  match k with
  | Z.pos p =>
      SFdiv prec emax (S754_finite s p 0)
            (S754_finite false (Z.to_pos (10 ^ Z.of_nat n)) 0)
  | _ => S754_zero s
  end.

(** [round(x, ndigits)] for a float [x] and [0 <= ndigits], as CPython's
    [float.__round__] computes it: infinities, NaN and zeros round to
    themselves; a finite [x] is converted to the nearest decimal with
    [ndigits] digits after the point (ties to even, on the exact binary
    value) and that decimal is converted back to the nearest float. *)

Definition py_round (x : float) (ndigits : nat) : float :=
  match Prim2SF x with
  | S754_finite s m e =>
      SF2Prim (decimal_to_float s (scaled_decimal m e ndigits) ndigits)
  | _ => x
  end.

(** *** Formatting with [:.1%]: the float is multiplied by 100 and printed
    with one digit after the point, followed by the percent sign. *)

Fixpoint decimal_digits (fuel : nat) (n : Z) (acc : string) : string :=
  match fuel with
  | O => acc
  | S fuel' =>
      let acc' := String (Ascii.ascii_of_nat (48 + Z.to_nat (n mod 10))) acc in
      if n <? 10 then acc' else decimal_digits fuel' (n / 10) acc'
  end.

Definition str_of_Z (n : Z) : string :=
  decimal_digits (S (Z.to_nat (Z.log2 n))) n EmptyString.

Definition sign_str (s : bool) : string := if s then "-" else EmptyString.

Definition format_percent_1 (x : float) : string :=
  match Prim2SF (x * 100)%float with
  | S754_nan => "nan%"
  | S754_infinity s => sign_str s +:+ "inf%"
  | S754_zero s => sign_str s +:+ "0.0%"
  | S754_finite s m e =>
      let k := scaled_decimal m e 1 in
      sign_str s +:+ str_of_Z (k / 10) +:+ "." +:+ str_of_Z (k mod 10) +:+ "%"
  end.

(** *** Exceptions and standard output.  A computation either returns a value
    or raises an exception, and it may print lines on the way.  Only
    exceptions of class [Exception] occur: they carry their message. *)

Inductive exn : Type := Exception (msg : string).

Definition exn_str (e : exn) : string := let 'Exception msg := e in msg.

Inductive outcome (A : Type) : Type :=
  | Returned (a : A)
  | Raised (e : exn).
Arguments Returned {A} a.
Arguments Raised {A} e.

Definition M (A : Type) : Type := list string → outcome A * list string.

Definition ret {A} (a : A) : M A := λ out, (Returned a, out).

Definition bind {A B} (m : M A) (k : A → M B) : M B :=
  λ out, match m out with
         | (Returned a, out') => k a out'
         | (Raised e, out') => (Raised e, out')
         end.

Definition raise {A} (e : exn) : M A := λ out, (Raised e, out).

Definition print (line : string) : M unit := λ out, (Returned tt, out ++ [line]).

(** [try: body except Exception as e: handler e] *)

Definition try_except {A} (body : M A) (handler : exn → M A) : M A :=
  λ out, match body out with
         | (Returned a, out') => (Returned a, out')
         | (Raised e, out') => handler e out'
         end.

Notation "'let*' x ':=' m 'in' k" := (bind m (λ x, k))
  (at level 10, x name, m at level 100, k at level 200).

(** *** The [hyperon] package, seen from this module.  An atom of a result is
    represented by what [float(str(atom))] does with it: a numeral is
    converted; any other text raises [ValueError], whose message ends with
    the text as [repr] writes it, with the quotes [repr] chooses and its
    escapes.  The atom carries that quoted text. *)

Inductive atom : Type :=
  | Numeral (value : float)
  | Text (quoted : string).

Definition float_of_str (a : atom) : M float :=
  match a with
  | Numeral v => ret v
  | Text quoted => raise (Exception ("could not convert string to float: " +:+ quoted))
  end.

(** What [from hyperon import ...; MeTTa().run(metta_code)] does in one call:
    the import fails, the run raises, or the run returns the list of the
    results of its queries.  The text of the MeTTa program (lines 35 to 60)
    only reaches [hyperon]: writing the four floats into it cannot fail. *)

Inductive hyperon : Type :=
  | ImportFails (e : exn)
  | RunRaises (e : exn)
  | RunReturns (result : list (list atom)).

Definition metta_run (h : hyperon) : M (list (list atom)) :=
  match h with
  | ImportFails e => raise e
  | RunRaises e => raise e
  | RunReturns result => ret result
  end.

(** [row[0]] *)

Definition item0 (row : list atom) : M atom :=
  match row with
  | a :: _ => ret a
  | [] => raise (Exception "list index out of range")
  end.

(** ** The module *)

(** The dictionary [calculate_priority] returns; [factors] keeps the order in
    which its keys are written. *)

Record priority_result : Type := {
  priority_score : float;
  priority_level : string;
  allocation_percentage : float;
  confidence_score : float;
  explanation : string;
  key_findings : list string;
  recommendations : list string;
  factors : list (string * float);
  engine : string
}.

Definition calculate_priority_python
    (poverty_index project_impact environmental_score corruption_risk : float)
    : float :=
  let POVERTY_WEIGHT := 0.4%float in
  let IMPACT_WEIGHT := 0.3%float in
  let ENVIRONMENTAL_WEIGHT := 0.2%float in
  let CORRUPTION_WEIGHT := 0.1%float in
  (poverty_index * POVERTY_WEIGHT +
   project_impact * IMPACT_WEIGHT +
   environmental_score * ENVIRONMENTAL_WEIGHT +
   (1 - corruption_risk) * CORRUPTION_WEIGHT)%float.

Definition explanations
    (priority_score poverty_index project_impact environmental_score : float)
    : gmap string string :=
  <["critical" :=
      "This region shows CRITICAL need with a priority score of "
      +:+ format_percent_1 priority_score +:+ ". "
      +:+ "Immediate intervention is required due to high poverty ("
      +:+ format_percent_1 poverty_index +:+ ") "
      +:+ "and significant project impact potential ("
      +:+ format_percent_1 project_impact +:+ ")."]>
  (<["high" :=
      "This region has HIGH priority with a score of "
      +:+ format_percent_1 priority_score +:+ ". "
      +:+ "Substantial resource allocation is recommended given the poverty level ("
      +:+ format_percent_1 poverty_index +:+ ") "
      +:+ "and environmental conditions ("
      +:+ format_percent_1 environmental_score +:+ ")."]>
  (<["medium" :=
      "This region shows MEDIUM priority with a score of "
      +:+ format_percent_1 priority_score +:+ ". "
      +:+ "Standard resource allocation is appropriate based on current metrics."]>
  (<["low" :=
      "This region has LOWER priority with a score of "
      +:+ format_percent_1 priority_score +:+ ". "
      +:+ "Baseline support should be maintained while monitoring for changing conditions."]>
  ∅))).

Definition generate_explanation
    (priority_score : float) (priority_level : string)
    (poverty_index project_impact environmental_score corruption_risk : float)
    : string :=
  default "Priority calculated based on regional metrics."
    (explanations priority_score poverty_index project_impact environmental_score
       !! priority_level).

Definition balanced_finding : string :=
  "Metrics indicate balanced conditions across all indicators".

Definition generate_key_findings
    (poverty_index project_impact environmental_score corruption_risk : float)
    : list string :=
  let findings := [] in
  let findings :=
    if py_ge poverty_index 0.7 then
      findings ++ ["High poverty rate detected (" +:+ format_percent_1 poverty_index
                   +:+ ") - economic support needed"]
    else findings in
  let findings :=
    if py_ge project_impact 0.7 then
      findings ++ ["High project impact potential (" +:+ format_percent_1 project_impact
                   +:+ ") - investments will yield strong returns"]
    else findings in
  let findings :=
    if py_ge environmental_score 0.7 then
      findings ++ ["Severe environmental degradation ("
                   +:+ format_percent_1 environmental_score
                   +:+ ") - conservation measures urgent"]
    else findings in
  let findings :=
    if py_ge corruption_risk 0.6 then
      findings ++ ["Elevated corruption risk (" +:+ format_percent_1 corruption_risk
                   +:+ ") - enhanced oversight required"]
    else if py_le corruption_risk 0.3 then
      findings ++ ["Low corruption risk (" +:+ format_percent_1 corruption_risk
                   +:+ ") - favorable governance environment"]
    else findings in
  let findings :=
    match findings with
    | [] => findings ++ [balanced_finding]
    | _ => findings
    end in
  findings.

Definition generate_recommendations
    (priority_level : string) (allocation_percentage : float)
    (poverty_index project_impact environmental_score corruption_risk : float)
    : list string :=
  let recommendations := [] in
  let recommendations :=
    if py_ge allocation_percentage 70 then
      (recommendations ++ ["Allocate majority of available funds to this region"])
        ++ ["Fast-track project approvals and implementation"]
    else if py_ge allocation_percentage 50 then
      (recommendations ++ ["Provide substantial funding allocation"])
        ++ ["Implement standard monitoring protocols"]
    else
      (recommendations ++ ["Provide moderate funding allocation"])
        ++ ["Monitor for changing conditions"] in
  let recommendations :=
    if py_ge poverty_index 0.7 then
      (recommendations ++ ["Prioritize poverty alleviation programs"])
        ++ ["Implement cash transfer or social safety net schemes"]
    else recommendations in
  let recommendations :=
    if py_ge project_impact 0.7 then
      recommendations ++ ["Maximize investment in high-impact projects"]
    else recommendations in
  let recommendations :=
    if py_ge environmental_score 0.7 then
      (recommendations ++ ["Include environmental restoration components"])
        ++ ["Engage local communities in conservation"]
    else recommendations in
  let recommendations :=
    if py_ge corruption_risk 0.6 then
      (recommendations ++ ["Establish strong audit and oversight mechanisms"])
        ++ ["Use transparent digital payment systems"]
    else recommendations in
  recommendations.

(** Lines 27 to 72, the body of the [try] statement: the score the MeTTa run
    gives, the Python formula when the run returns no result, or an
    exception. *)

Definition metta_attempt
    (h : hyperon)
    (poverty_index project_impact environmental_score corruption_risk : float)
    : M float :=
  let* result := metta_run h in
  match last result with
  | Some row => let* a := item0 row in float_of_str a
  | None =>
      ret (calculate_priority_python
             poverty_index project_impact environmental_score corruption_risk)
  end.

(** Lines 27 to 79, the [try] statement with its [except Exception as e]
    clause: the value bound to [priority_score]. *)

Definition score_via_metta
    (h : hyperon)
    (poverty_index project_impact environmental_score corruption_risk : float)
    : M float :=
  try_except
    (metta_attempt h poverty_index project_impact environmental_score corruption_risk)
    (λ e,
       let* _ := print ("MeTTa engine not available, using Python fallback: "
                        +:+ exn_str e) in
       ret (calculate_priority_python
              poverty_index project_impact environmental_score corruption_risk)).

(** Lines 82 to 89: the level of a score. *)

Definition level_of_score (priority_score : float) : string :=
  if py_ge priority_score 0.7 then "critical"
  else if py_ge priority_score 0.5 then "high"
  else if py_ge priority_score 0.3 then "medium"
  else "low".

(** Line 93: the allocation of a score. *)

Definition allocation_of_score (priority_score : float) : float :=
  py_min 100 (py_max 10 (priority_score * 100)%float).

(** Lines 81 to 127: everything [calculate_priority] does once
    [priority_score] is bound. *)

Definition assemble_result
    (score : float)
    (poverty_index project_impact environmental_score corruption_risk : float)
    : priority_result :=
  let level := level_of_score score in
  let allocation := allocation_of_score score in
  let explanation :=
    generate_explanation score level
      poverty_index project_impact environmental_score corruption_risk in
  let key_findings :=
    generate_key_findings
      poverty_index project_impact environmental_score corruption_risk in
  let recommendations :=
    generate_recommendations level allocation
      poverty_index project_impact environmental_score corruption_risk in
  {| priority_score := py_round score 4;
     priority_level := level;
     allocation_percentage := py_round allocation 2;
     confidence_score := py_round (0.85 + score * 0.1)%float 2;
     explanation := explanation;
     key_findings := key_findings;
     recommendations := recommendations;
     factors :=
       [("poverty_index", (poverty_index * 0.4)%float);
        ("project_impact", (project_impact * 0.3)%float);
        ("environmental_score", (environmental_score * 0.2)%float);
        ("corruption_risk", ((1 - corruption_risk) * 0.1)%float)];
     engine := "metta_local" |}.

Definition calculate_priority
    (h : hyperon)
    (poverty_index project_impact environmental_score corruption_risk : float)
    : M priority_result :=
  let* score := score_via_metta h poverty_index project_impact
                  environmental_score corruption_risk in
  ret (assemble_result score
         poverty_index project_impact environmental_score corruption_risk).

(** [data.get(key, default)] on a dictionary of floats. *)

Definition get_priority_calculation (h : hyperon) (data : gmap string float)
    : M priority_result :=
  calculate_priority h
    (default 0.5%float (data !! "poverty_index"))
    (default 0.5%float (data !! "project_impact"))
    (default 0.5%float (data !! "environmental_score"))
    (default 0.3%float (data !! "corruption_risk")).

(** ** Notions the statements below use *)

(** Which assignment to [priority_score] a call executes: line 67 (the MeTTa
    result) or one of lines 70 and 77 (the Python formula). *)

Inductive score_path : Type := MettaEngine | PythonFallback.

Definition path_taken (h : hyperon) : score_path :=
  match h with
  | RunReturns result =>
      match last result with
      | Some (Numeral _ :: _) => MettaEngine
      | _ => PythonFallback
      end
  | _ => PythonFallback
  end.

(** A call with inputs [p i e c], started with [out] on the standard output,
    binds [priority_score] to [score], returns [r] and leaves [out']. *)

Definition call (h : hyperon) (p i e c : float) (out : list string)
    (score : float) (r : priority_result) (out' : list string) : Prop :=
  score_via_metta h p i e c out = (Returned score, out') /\
  calculate_priority h p i e c out = (Returned r, out').

(** The weighted sum, as the specification writes it. *)

Definition weighted_sum (poverty impact environmental corruption : float) : float :=
  (poverty * 0.4 + impact * 0.3 + environmental * 0.2 + (1 - corruption) * 0.1)%float.

(** [x] lies in the closed interval from 0 to 1. *)

Definition in01 (x : float) : Prop := py_le 0 x = true /\ py_le x 1 = true.

(** [clamp(x, lo, hi)], by cases. *)

Definition clamp (x lo hi : float) : float :=
  if py_lt x lo then lo else if py_gt x hi then hi else x.

(** The recommendations, as the specification lists them: one band chosen by
    the allocation, then the items of each metric over its threshold. *)

Definition aggressive_items : list string :=
  ["Allocate majority of available funds to this region";
   "Fast-track project approvals and implementation"].

Definition standard_items : list string :=
  ["Provide substantial funding allocation";
   "Implement standard monitoring protocols"].

Definition conservative_items : list string :=
  ["Provide moderate funding allocation";
   "Monitor for changing conditions"].

Definition allocation_band (allocation : float) : list string :=
  if py_ge allocation 70 then aggressive_items
  else if py_ge allocation 50 then standard_items
  else conservative_items.

Definition triggered (metric threshold : float) (items : list string) : list string :=
  if py_ge metric threshold then items else [].

Definition poverty_items : list string :=
  ["Prioritize poverty alleviation programs";
   "Implement cash transfer or social safety net schemes"].

Definition impact_items : list string :=
  ["Maximize investment in high-impact projects"].

Definition environmental_items : list string :=
  ["Include environmental restoration components";
   "Engage local communities in conservation"].

Definition corruption_items : list string :=
  ["Establish strong audit and oversight mechanisms";
   "Use transparent digital payment systems"].

(** The adapter, as the specification describes it: every missing key gets
    its default, then the four values are forwarded. *)

Definition DEFAULTS : gmap string float :=
  <["poverty_index" := 0.5%float]>
  (<["project_impact" := 0.5%float]>
  (<["environmental_score" := 0.5%float]>
  (<["corruption_risk" := 0.3%float]> ∅))).

Definition with_defaults (data : gmap string float) : gmap string float :=
  data ∪ DEFAULTS.

Definition forward (h : hyperon) (metrics : gmap string float) : M priority_result :=
  match metrics !! "poverty_index", metrics !! "project_impact",
        metrics !! "environmental_score", metrics !! "corruption_risk" with
  | Some p, Some i, Some e, Some c => calculate_priority h p i e c
  | _, _, _, _ => raise (Exception "KeyError")
  end.

(** The band the recommendations open with, by level; the rank of a level in
    the order low, medium, high, critical; the line the [except] clause
    prints; and the keys the adapter reads. *)

Definition band_of_level (level : string) : list string :=
  if decide (level = "critical") then aggressive_items
  else if decide (level = "high") then standard_items
  else conservative_items.

Definition level_rank (level : string) : nat :=
  if decide (level = "critical") then 3
  else if decide (level = "high") then 2
  else if decide (level = "medium") then 1
  else 0.

Definition fallback_line (msg : string) : string :=
  "MeTTa engine not available, using Python fallback: " +:+ msg.

(** The text of [k] tenths of a percent, [0 <= k], as [:.1%] writes it. *)

Definition percent_str (k : Z) : string :=
  str_of_Z (k / 10) +:+ "." +:+ str_of_Z (k mod 10) +:+ "%".

(** The result of a call whose score is the one of the Python formula. *)

Definition fallback_result (p i e c : float) : priority_result :=
  assemble_result (calculate_priority_python p i e c) p i e c.

Definition METRIC_KEYS : list string :=
  ["poverty_index"; "project_impact"; "environmental_score"; "corruption_risk"].

(** ** The value of a binary64 number

    Every finite binary64 number, and every exact product of two of them, is
    an integer multiple of [2^-2148].  [val2 x] is the value of a spec float
    that is not negative, counted in that unit; an infinity counts as
    [2^1024]. *)

Definition INF : Z := 2 ^ 3172.
Arguments INF : simpl never.

Definition val2 (x : spec_float) : Z :=
  match x with
  | S754_zero _ => 0
  | S754_finite _ m e => Z.pos m * 2 ^ (e + 2148)
  | S754_infinity _ => INF
  | S754_nan => 0
  end.

Definition nonneg_sf (x : spec_float) : bool :=
  match x with
  | S754_zero _ => true
  | S754_finite s _ _ => negb s
  | S754_infinity s => negb s
  | S754_nan => false
  end.

(** finite or zero, and not negative *)

Definition finz (x : spec_float) : bool :=
  match x with
  | S754_zero _ => true
  | S754_finite s _ _ => negb s
  | _ => false
  end.

Definition val (x : float) : Z := val2 (Prim2SF x).
Definition nn (x : float) : Prop := nonneg_sf (Prim2SF x) = true.
Definition fz (x : float) : Prop := finz (Prim2SF x) = true.

(** [x] is not negative and at most [X]. *)

Definition upto (x X : float) : Prop := nn x /\ py_le x X = true.

(** Rounding to nearest, ties to even, on values: [ulp_exp N] is the exponent
    of the last binary digit a binary64 number of value [N] keeps, and [RN N]
    the value of the binary64 number nearest to [N]. *)

Definition ulp_exp (N : Z) : Z := Z.max (Z.log2 N + 1 - 53) 1074.

Definition RN (N : Z) : Z :=
  round_half_even_div N (2 ^ ulp_exp N) * 2 ^ ulp_exp N.

(** The same for a quotient [a / b] of integers that is not an integer:
    [RNq a b] is the value of the binary64 number nearest to [a / b]. *)

Definition ulpq (a b : Z) : Z := Z.max (Z.log2 (a / b) + 1 - 53) 1074.

Definition RNq (a b : Z) : Z :=
  round_half_even_div a (b * 2 ^ ulpq a b) * 2 ^ ulpq a b.

(** Where the remainder [r] of a division by [b] lies between 0 and [b]:
    the location [SpecFloat] rounds from. *)

Definition loc_of_rem (r b : Z) : location :=
  if r =? 0 then loc_Exact else loc_Inexact (2 * r ?= b).

(** The float [py_round] returns for the decimal [k / 10^n], and the decimal
    digits of a float that is not negative, from its value. *)

Definition float_of_decimal (k : Z) (n : nat) : float :=
  SF2Prim (decimal_to_float false k n).

Definition decimal_of (x : float) (n : nat) : Z :=
  round_half_even_div (val x * 10 ^ Z.of_nat n) (2 ^ 2148).

(** The float 100 as a spec float, and line 93 as a function of the product
    [priority_score * 100]. *)

Definition hundred_sf : spec_float := Eval vm_compute in Prim2SF 100.

Definition clampf (x : float) : float := py_min 100 (py_max 10 x).

(** The largest floats below the literals [0.7] and [0.5], and the float the
    four weights add up to, in the order the formula adds them. *)

Definition below_0_7 : float := 0x1.6666666666665p-1.
Definition below_0_5 : float := 0x1.fffffffffffffp-2.
Definition weights_total : float := (1 * 0.4 + 1 * 0.3 + 1 * 0.2 + 1 * 0.1)%float.

(** * Properties *)

(** ** Rounding a quotient to the nearest integer *)

Lemma rne_floor a b : 0 < b -> a / b <= round_half_even_div a b <= a / b + 1.
Proof.
  intros Hb. unfold round_half_even_div.
  destruct (2 * (a mod b) ?= b); [destruct (Z.even (a / b))|..]; lia.
Qed.

Lemma rne_exact k b : 0 < b -> round_half_even_div (k * b) b = k.
Proof.
  intros Hb. unfold round_half_even_div.
  rewrite Z.mod_mul, Z.div_mul by lia.
  destruct (Z.compare_spec (2 * 0) b); [lia | reflexivity | lia].
Qed.

Lemma rne_scale a b c :
  0 < b -> 0 < c -> round_half_even_div (a * c) (b * c) = round_half_even_div a b.
Proof.
  intros Hb Hc. unfold round_half_even_div.
  rewrite Z.div_mul_cancel_r, Z.mul_mod_distr_r by lia.
  destruct (Z.compare_spec (2 * (a mod b * c)) (b * c)),
           (Z.compare_spec (2 * (a mod b)) b); try reflexivity; nia.
Qed.

Lemma rne_mono a1 a2 b :
  0 < b -> a1 <= a2 -> round_half_even_div a1 b <= round_half_even_div a2 b.
Proof.
  intros Hb Ha.
  assert (Hq : a1 / b <= a2 / b) by (apply Z.div_le_mono; lia).
  destruct (Z.eq_dec (a1 / b) (a2 / b)) as [Heq|Hne].
  - assert (Hr : a1 mod b <= a2 mod b).
    { rewrite !Z.mod_eq by lia. rewrite Heq. lia. }
    unfold round_half_even_div. rewrite Heq.
    destruct (Z.compare_spec (2 * (a1 mod b)) b), (Z.compare_spec (2 * (a2 mod b)) b);
      destruct (Z.even (a2 / b)); lia.
  - pose proof (rne_floor a1 b Hb). pose proof (rne_floor a2 b Hb). lia.
Qed.

Lemma rne_le_int a b k : 0 < b -> a <= k * b -> round_half_even_div a b <= k.
Proof.
  intros Hb Ha. rewrite <- (rne_exact k b Hb). now apply rne_mono.
Qed.

Lemma rne_ge_int a b k : 0 < b -> k * b <= a -> k <= round_half_even_div a b.
Proof.
  intros Hb Ha. rewrite <- (rne_exact k b Hb). now apply rne_mono.
Qed.

(** ** Rounding a value to the nearest binary64 value *)

Lemma RNq_1 N : RNq N 1 = RN N.
Proof. unfold RNq, RN, ulpq, ulp_exp. rewrite Z.div_1_r, Z.mul_1_l. reflexivity. Qed.

Lemma ulpq_mono a1 a2 b : 0 < b -> a1 <= a2 -> ulpq a1 b <= ulpq a2 b.
Proof.
  intros Hb H. unfold ulpq.
  pose proof (Z.log2_le_mono (a1 / b) (a2 / b) (Z.div_le_mono _ _ _ Hb H)). lia.
Qed.

Lemma div_lt_pow2 a b d : 0 < b -> 0 <= d -> a / b < 2 ^ d -> a < b * 2 ^ d.
Proof.
  intros Hb Hd H.
  pose proof (Z.div_mod a b ltac:(lia)). pose proof (Z.mod_pos_bound a b Hb). nia.
Qed.

Lemma RNq_mono a1 a2 b : 0 < b -> 0 <= a1 -> a1 <= a2 -> RNq a1 b <= RNq a2 b.
Proof.
  intros Hb H0 H. unfold RNq.
  pose proof (ulpq_mono _ _ _ Hb H) as Hu.
  assert (Hu1 : 1074 <= ulpq a1 b) by (unfold ulpq; lia).
  destruct (Z.eq_dec (ulpq a1 b) (ulpq a2 b)) as [Heq|Hne].
  - rewrite Heq. apply Z.mul_le_mono_nonneg_r; [apply Z.pow_nonneg; lia|].
    apply rne_mono; [|exact H].
    apply Z.mul_pos_pos; [assumption|apply Z.pow_pos_nonneg; lia].
  - assert (Hlt : ulpq a1 b < ulpq a2 b) by lia.
    assert (Hq1 : 0 <= a1 / b) by (apply Z.div_pos; lia).
    assert (Hq2 : 0 < a2 / b).
    { destruct (Z.le_gt_cases (a2 / b) 0) as [Hle|]; [|assumption].
      exfalso. unfold ulpq in Hlt. rewrite (Z.log2_nonpos (a2 / b) Hle) in Hlt.
      pose proof (Z.log2_nonneg (a1 / b)). lia. }
    assert (Hu2 : ulpq a2 b = Z.log2 (a2 / b) + 1 - 53) by (unfold ulpq in *; lia).
    set (u1 := ulpq a1 b) in *. set (u2 := ulpq a2 b) in *.
    assert (Hp1 : 0 < 2 ^ u1) by (apply Z.pow_pos_nonneg; lia).
    assert (Hp2 : 0 < 2 ^ u2) by (apply Z.pow_pos_nonneg; lia).
    assert (Hup : round_half_even_div a1 (b * 2 ^ u1) <= 2 ^ 53).
    { apply rne_le_int; [lia|].
      assert (a1 < b * 2 ^ (53 + u1)); [|rewrite Z.pow_add_r in * by lia; lia].
      apply div_lt_pow2; [assumption|lia|].
      destruct (Z.eq_dec (a1 / b) 0) as [->|]; [apply Z.pow_pos_nonneg; lia|].
      pose proof (Z.log2_spec (a1 / b) ltac:(lia)) as [_ Hs].
      eapply Z.lt_le_trans; [exact Hs|].
      apply Z.pow_le_mono_r; [lia|]. unfold u1, ulpq. lia. }
    assert (Hlo : 2 ^ 52 <= round_half_even_div a2 (b * 2 ^ u2)).
    { apply rne_ge_int; [lia|].
      pose proof (Z.log2_spec (a2 / b) Hq2) as [Hs _].
      replace (Z.log2 (a2 / b)) with (52 + u2) in Hs by lia.
      rewrite Z.pow_add_r in Hs by lia.
      pose proof (Z.mul_div_le a2 b Hb). nia. }
    apply Z.le_trans with (2 ^ 53 * 2 ^ u1).
    { apply Z.mul_le_mono_nonneg_r; lia. }
    apply Z.le_trans with (2 ^ 52 * 2 ^ u2).
    { rewrite <- !Z.pow_add_r by lia. apply Z.pow_le_mono_r; lia. }
    apply Z.mul_le_mono_nonneg_r; lia.
Qed.

Lemma RN_mono N1 N2 : 0 <= N1 -> N1 <= N2 -> RN N1 <= RN N2.
Proof. intros H0 H. rewrite <- !RNq_1. apply RNq_mono; lia. Qed.

(** ** Digits and right shifts of a mantissa *)

Lemma digits2_pos_size m : digits2_pos m = Pos.size m.
Proof. induction m as [m IH|m IH|]; simpl; congruence. Qed.

Lemma digits2_log2 m : Z.pos (digits2_pos m) = Z.log2 (Z.pos m) + 1.
Proof.
  rewrite digits2_pos_size. destruct m as [m|m|]; simpl; try reflexivity;
    rewrite Pos2Z.inj_succ; lia.
Qed.

Lemma iter_pos_iter {A} (f : A -> A) p x : SpecFloat.iter_pos f p x = Pos.iter f x p.
Proof.
  revert x. induction p as [p IH|p IH|]; intros x; simpl.
  - rewrite !IH, !Pos.iter_swap. reflexivity.
  - rewrite !IH. reflexivity.
  - reflexivity.
Qed.

Lemma shr_1_nonneg q r s :
  0 <= q -> shr_1 (Build_shr_record q r s) = Build_shr_record (q / 2) (Z.odd q) (r || s).
Proof.
  intros Hq. rewrite <- Z.div2_div.
  destruct q as [|[q|q|]|q]; try reflexivity. lia.
Qed.

Lemma pow2_pos_pred p : 2 ^ Z.pos p = 2 ^ (Z.pos p - 1) * 2.
Proof.
  replace (Z.pos p) with (Z.succ (Z.pos p - 1)) at 1 by lia.
  rewrite Z.pow_succ_r by lia. lia.
Qed.

Lemma shr_iter_gen q r0 s0 p :
  0 <= q ->
  SpecFloat.iter_pos shr_1 p (Build_shr_record q r0 s0) =
  Build_shr_record (q / 2 ^ Z.pos p) (Z.odd (q / 2 ^ (Z.pos p - 1)))
                   (negb (q mod 2 ^ (Z.pos p - 1) =? 0) || (r0 || s0)).
Proof.
  intros Hq. rewrite iter_pos_iter.
  induction p as [|p IH] using Pos.peano_ind.
  - cbn [Pos.iter]. rewrite shr_1_nonneg by assumption.
    change (2 ^ (1 - 1)) with 1. change (2 ^ 1) with 2. rewrite Z.div_1_r, Z.mod_1_r. reflexivity.
  - rewrite Pos.iter_succ, IH.
    assert (Hp : 0 < 2 ^ (Z.pos p - 1)) by (apply Z.pow_pos_nonneg; lia).
    rewrite shr_1_nonneg by (apply Z.div_pos; [lia | apply Z.pow_pos_nonneg; lia]).
    rewrite Pos2Z.inj_succ.
    replace (Z.succ (Z.pos p) - 1) with (Z.pos p) by lia.
    rewrite Z.pow_succ_r by lia.
    rewrite (Z.mul_comm 2), <- Z.div_div by (try apply Z.pow_pos_nonneg; lia).
    f_equal. rewrite orb_assoc. f_equal.
    rewrite (pow2_pos_pred p).
    rewrite Z.rem_mul_r by lia. rewrite Zmod_odd.
    pose proof (Z.mod_pos_bound q (2 ^ (Z.pos p - 1)) Hp).
    clear IH.
    destruct (Z.odd (q / 2 ^ (Z.pos p - 1)));
      destruct (Z.eqb_spec (q mod 2 ^ (Z.pos p - 1)) 0);
      match goal with |- context [?a =? 0] => destruct (Z.eqb_spec a 0) end;
      simpl; try reflexivity; lia.
Qed.

Lemma shr_record_of_loc_rem q r b :
  shr_record_of_loc q (loc_of_rem r b) =
  Build_shr_record q
    (negb (r =? 0) && match 2 * r ?= b with Lt => false | _ => true end)
    (negb (r =? 0) && match 2 * r ?= b with Eq => false | _ => true end).
Proof.
  unfold loc_of_rem. destruct (r =? 0); [reflexivity|].
  destruct (2 * r ?= b); reflexivity.
Qed.

Lemma round_loc_of_rem a b :
  0 < b ->
  round_nearest_even (a / b) (loc_of_rem (a mod b) b) = round_half_even_div a b.
Proof.
  intros Hb. unfold loc_of_rem, round_half_even_div.
  pose proof (Z.mod_pos_bound a b Hb).
  destruct (Z.eqb_spec (a mod b) 0) as [E|E].
  - rewrite E. destruct (Z.compare_spec (2 * 0) b); try lia. reflexivity.
  - destruct (2 * (a mod b) ?= b); reflexivity.
Qed.

Lemma round_shr_gen a b p :
  0 <= a -> 0 < b ->
  let q := a / b in
  let r := a mod b in
  round_nearest_even (q / 2 ^ Z.pos p)
    (loc_of_shr_record
       (Build_shr_record (q / 2 ^ Z.pos p) (Z.odd (q / 2 ^ (Z.pos p - 1)))
          (negb (q mod 2 ^ (Z.pos p - 1) =? 0)
           || (negb (r =? 0) && match 2 * r ?= b with Lt => false | _ => true end
               || negb (r =? 0) && match 2 * r ?= b with Eq => false | _ => true end)))) =
  round_half_even_div a (b * 2 ^ Z.pos p).
Proof.
  intros Ha Hb q r. unfold round_half_even_div.
  assert (Hp : 0 < 2 ^ (Z.pos p - 1)) by (apply Z.pow_pos_nonneg; lia).
  assert (Hpp : 0 < 2 ^ Z.pos p) by (apply Z.pow_pos_nonneg; lia).
  rewrite <- Z.div_div by lia. fold q.
  rewrite (Z.rem_mul_r a b (2 ^ Z.pos p)) by lia. fold q r.
  pose proof (pow2_pos_pred p) as E.
  assert (Hq : q mod 2 ^ Z.pos p =
               q mod 2 ^ (Z.pos p - 1)
               + 2 ^ (Z.pos p - 1) * (if Z.odd (q / 2 ^ (Z.pos p - 1)) then 1 else 0)).
  { rewrite E, Z.rem_mul_r, Zmod_odd by lia. reflexivity. }
  rewrite Hq. clear Hq.
  pose proof (Z.mod_pos_bound q (2 ^ (Z.pos p - 1)) Hp) as Ht.
  pose proof (Z.mod_pos_bound a b Hb) as Hr. fold r in Hr.
  assert (Hs : (negb (r =? 0) && match 2 * r ?= b with Lt => false | _ => true end
               || negb (r =? 0) && match 2 * r ?= b with Eq => false | _ => true end)
               = negb (r =? 0)).
  { destruct (r =? 0); [reflexivity|]. destruct (2 * r ?= b); reflexivity. }
  rewrite Hs. clear Hs.
  rewrite E. clear E Hpp.
  generalize dependent (q / 2 ^ Z.pos p). intros Q.
  generalize dependent (Z.odd (q / 2 ^ (Z.pos p - 1))). intros bit.
  generalize dependent (q mod 2 ^ (Z.pos p - 1)). intros t.
  generalize dependent (2 ^ (Z.pos p - 1)). intros h Hh Ht.
  destruct bit, (Z.eqb_spec t 0) as [E0|E0], (Z.eqb_spec r 0) as [E1|E1]; cbn;
    match goal with |- context [?x ?= ?y] => destruct (Z.compare_spec x y) end;
    try reflexivity; nia.
Qed.

(** ** What [binary_round_aux] computes *)

Lemma Zdigits2_log2 q : 0 < q -> Zdigits2 q = Z.log2 q + 1.
Proof. destruct q as [|q|q]; try lia. intros _. apply digits2_log2. Qed.

Lemma fexp_eq x : fexp prec emax x = Z.max (x - 53) (-1074).
Proof. reflexivity. Qed.

Lemma loc_of_shr_record_of_loc q r b :
  loc_of_shr_record (shr_record_of_loc q (loc_of_rem r b)) = loc_of_rem r b.
Proof.
  unfold loc_of_rem. destruct (r =? 0); [reflexivity|].
  destruct (2 * r ?= b); reflexivity.
Qed.

Lemma first_shift_gen a b e :
  0 <= a -> 0 < b ->
  e <= fexp prec emax (Zdigits2 (a / b) + e) ->
  exists mrs,
    shr_fexp prec emax (a / b) e (loc_of_rem (a mod b) b) =
      (mrs, fexp prec emax (Zdigits2 (a / b) + e)) /\
    round_nearest_even (shr_m mrs) (loc_of_shr_record mrs) =
      round_half_even_div a (b * 2 ^ (fexp prec emax (Zdigits2 (a / b) + e) - e)).
Proof.
  intros Ha Hb Hn. unfold shr_fexp, shr.
  set (fe := fexp prec emax (Zdigits2 (a / b) + e)) in *.
  assert (Hq : 0 <= a / b) by (apply Z.div_pos; lia).
  destruct (fe - e) as [|p|p] eqn:En; try lia.
  - eexists. split.
    + f_equal. lia.
    + rewrite loc_of_shr_record_of_loc, shr_record_of_loc_rem. cbn [shr_m].
      change (2 ^ 0) with 1. rewrite Z.mul_1_r. now apply round_loc_of_rem.
  - eexists. split.
    + f_equal. lia.
    + rewrite shr_record_of_loc_rem, shr_iter_gen by assumption.
      cbn [shr_m]. now apply round_shr_gen.
Qed.

Lemma second_shift q fe :
  0 <= q <= 2 ^ 53 -> -1074 <= fe ->
  shr_fexp prec emax q fe loc_Exact =
    if q =? 2 ^ 53 then (Build_shr_record (2 ^ 52) false false, fe + 1)
    else (Build_shr_record q false false, fe).
Proof.
  intros [Hq0 Hq] Hfe. unfold shr_fexp. rewrite fexp_eq.
  destruct (Z.eqb_spec q (2 ^ 53)) as [->|Hne].
  - replace (Z.max (Zdigits2 (2 ^ 53) + fe - 53) (-1074) - fe) with 1
      by (change (Zdigits2 (2 ^ 53)) with 54; lia).
    reflexivity.
  - assert (Hd : Zdigits2 q <= 53).
    { destruct (Z.eq_dec q 0) as [->|]; [simpl; lia|].
      rewrite Zdigits2_log2 by lia.
      assert (Z.log2 q < 53); [|lia]. apply Z.log2_lt_pow2; lia. }
    simpl shr_record_of_loc. unfold shr.
    destruct (Z.max (Zdigits2 q + fe - 53) (-1074) - fe) eqn:E; try reflexivity. lia.
Qed.

Lemma valid_finite_intro s m e :
  -1074 <= e <= 971 -> Z.pos m < 2 ^ 53 -> (-1074 < e -> 2 ^ 52 <= Z.pos m) ->
  valid_binary (S754_finite s m e) = true.
Proof.
  intros He Hm Hn. unfold valid_binary, bounded, canonical_mantissa.
  rewrite fexp_eq, digits2_log2.
  assert (Z.log2 (Z.pos m) < 53) by (apply Z.log2_lt_pow2; lia).
  assert (-1074 < e -> 52 <= Z.log2 (Z.pos m))
    by (intros H'; apply Z.log2_le_pow2; [lia | now apply Hn]).
  apply andb_true_iff. split; [apply Z.eqb_eq | apply Z.leb_le; change (emax - prec) with 971]; lia.
Qed.

Lemma binary_round_aux_gen a b e :
  0 <= a -> 0 < b -> 0 < a / b ->
  -2148 <= e ->
  e <= fexp prec emax (Zdigits2 (a / b) + e) ->
  nonneg_sf (binary_round_aux prec emax false (a / b) e (loc_of_rem (a mod b) b)) = true /\
  valid_binary (binary_round_aux prec emax false (a / b) e (loc_of_rem (a mod b) b)) = true /\
  val2 (binary_round_aux prec emax false (a / b) e (loc_of_rem (a mod b) b)) =
    Z.min (RNq (a * 2 ^ (e + 2148)) b) INF.
Proof.
  intros Ha Hb Hq0 He Hn. unfold binary_round_aux.
  destruct (first_shift_gen a b e Ha Hb Hn) as (mrs & -> & Hq).
  rewrite Hq. clear Hq mrs.
  rewrite Zdigits2_log2 in * by assumption. rewrite fexp_eq in *.
  set (d := Z.log2 (a / b) + 1) in *.
  set (fe := Z.max (d + e - 53) (-1074)) in *.
  set (q := round_half_even_div a (b * 2 ^ (fe - e))).
  pose proof (Z.log2_spec (a / b) Hq0) as [Hlo' Hhi'].
  replace (Z.succ (Z.log2 (a / b))) with d in Hhi' by (unfold d; lia).
  replace (Z.log2 (a / b)) with (d - 1) in Hlo' by (unfold d; lia).
  assert (Hd : 1 <= d) by (pose proof (Z.log2_nonneg (a / b)); unfold d; lia).
  assert (Hhi : a < b * 2 ^ d) by (apply div_lt_pow2; [assumption|lia|assumption]).
  assert (Hlo : b * 2 ^ (d - 1) <= a).
  { pose proof (Z.mul_div_le a b Hb). nia. }
  clear Hlo' Hhi'.
  assert (Hpn : 0 < 2 ^ (fe - e)) by (apply Z.pow_pos_nonneg; lia).
  assert (Hbp : 0 < b * 2 ^ (fe - e)) by (apply Z.mul_pos_pos; assumption).
  (* bounds on the rounded mantissa *)
  assert (Hq0' : 0 <= q) by (apply (rne_ge_int _ _ 0); lia).
  assert (Hq53 : q <= 2 ^ 53).
  { apply rne_le_int; [assumption|].
    apply Z.lt_le_incl. eapply Z.lt_le_trans; [exact Hhi|].
    rewrite (Z.mul_comm (2 ^ 53)), <- Z.mul_assoc, <- Z.pow_add_r by lia.
    apply Z.mul_le_mono_nonneg_l; [lia|]. apply Z.pow_le_mono_r; lia. }
  assert (Hq52 : -1074 < fe -> 2 ^ 52 <= q).
  { intros Hfe. apply rne_ge_int; [assumption|].
    eapply Z.le_trans; [|exact Hlo].
    rewrite (Z.mul_comm (2 ^ 52)), <- Z.mul_assoc, <- Z.pow_add_r by lia.
    apply Z.mul_le_mono_nonneg_l; [lia|]. apply Z.pow_le_mono_r; lia. }
  (* the value the rounding function gives *)
  assert (Hk : 0 < 2 ^ (e + 2148)) by (apply Z.pow_pos_nonneg; lia).
  assert (HRN : RNq (a * 2 ^ (e + 2148)) b = q * 2 ^ (fe + 2148)).
  { unfold RNq. assert (Hu : ulpq (a * 2 ^ (e + 2148)) b = fe + 2148).
    { unfold ulpq.
      assert (Z.log2 (a * 2 ^ (e + 2148) / b) = d - 1 + (e + 2148)); [|unfold fe; lia].
      apply Z.log2_unique; [lia|]. split.
      - apply Z.div_le_lower_bound; [assumption|].
        rewrite (Z.pow_add_r 2 (d - 1) (e + 2148)) by lia. nia.
      - apply Z.div_lt_upper_bound; [assumption|].
        replace (Z.succ (d - 1 + (e + 2148))) with (d + (e + 2148)) by lia.
        rewrite (Z.pow_add_r 2 d (e + 2148)) by lia. nia. }
    rewrite Hu. f_equal. unfold q.
    replace (fe + 2148) with ((fe - e) + (e + 2148)) by lia.
    rewrite (Z.pow_add_r 2 (fe - e) (e + 2148)) by lia.
    rewrite Z.mul_assoc. apply rne_scale; assumption. }
  rewrite HRN. rewrite second_shift by lia.
  assert (Hp : 0 < 2 ^ (fe + 2148)) by (apply Z.pow_pos_nonneg; lia).
  destruct (Z.eqb_spec q (2 ^ 53)) as [Hc|Hc].
  - (* the mantissa overflowed into the next binade *)
    cbn [shr_m]. change (2 ^ 52) with (Z.pos (2 ^ 52)%positive).
    cbv iota. rewrite Hc.
    destruct (Z.leb_spec (fe + 1) (emax - prec)) as [Hle|Hgt];
      (split; [reflexivity|]); change (emax - prec) with 971 in *;
      (split; [first [reflexivity | apply valid_finite_intro; [lia | reflexivity | reflexivity] ]|]);
      cbn [val2]; unfold INF.
    + change (Z.pos (2 ^ 52)) with (2 ^ 52). rewrite <- !Z.pow_add_r by lia.
      rewrite Z.min_l.
      * apply (f_equal (Z.pow 2)). lia.
      * apply Z.pow_le_mono_r; lia.
    + rewrite <- !Z.pow_add_r by lia. rewrite Z.min_r; [reflexivity|].
      apply Z.pow_le_mono_r; lia.
  - cbn [shr_m]. destruct q as [|q'|q'] eqn:Eq; try lia.
    + split; [reflexivity|]. split; [reflexivity|]. cbn [val2].
      assert (0 < INF) by (unfold INF; apply Z.pow_pos_nonneg; lia). lia.
    + destruct (Z.leb_spec fe (emax - prec)) as [Hle|Hgt];
        (split; [reflexivity|]); change (emax - prec) with 971 in *;
        (split; [first [reflexivity | apply valid_finite_intro; lia]|]);
        cbn [val2]; unfold INF.
      * rewrite Z.min_l; [reflexivity|].
        apply Z.le_trans with (2 ^ 53 * 2 ^ (fe + 2148)).
        { apply Z.mul_le_mono_nonneg_r; lia. }
        rewrite <- Z.pow_add_r by lia. apply Z.pow_le_mono_r; lia.
      * rewrite Z.min_r; [reflexivity|].
        apply Z.le_trans with (2 ^ 52 * 2 ^ (fe + 2148)).
        { rewrite <- Z.pow_add_r by lia. apply Z.pow_le_mono_r; lia. }
        apply Z.mul_le_mono_nonneg_r; [lia|]. apply Hq52. lia.
Qed.

Lemma binary_round_aux_val m e :
  -2148 <= e ->
  e <= fexp prec emax (Z.pos (digits2_pos m) + e) ->
  nonneg_sf (binary_round_aux prec emax false (Z.pos m) e loc_Exact) = true /\
  val2 (binary_round_aux prec emax false (Z.pos m) e loc_Exact) =
    Z.min (RN (Z.pos m * 2 ^ (e + 2148))) INF.
Proof.
  intros He Hn.
  destruct (binary_round_aux_gen (Z.pos m) 1 e) as (H1 & _ & H2);
    rewrite ?Z.div_1_r; try lia; try assumption.
  rewrite Z.div_1_r, Z.mod_1_r, RNq_1 in *. now split.
Qed.

(** ** Valid spec floats and their order *)

(** Case analysis on a spec float that [H] says is not negative: the cases
    that contradict [H] are closed, and the sign of the others is [false]. *)

Tactic Notation "sf_cases" constr(x) "as" simple_intropattern(pat) "by" hyp(H) :=
  destruct x as pat; cbn [nonneg_sf finz] in H; try discriminate H;
  try (apply negb_true_iff in H; subst).

Create HintDb floats.
#[local] Hint Resolve Prim2SF_valid : floats.

Lemma valid_finite s m e :
  valid_binary (S754_finite s m e) = true ->
  -1074 <= e <= 971 /\
  2 ^ Z.log2 (Z.pos m) <= Z.pos m < 2 ^ (Z.log2 (Z.pos m) + 1) /\
  Z.log2 (Z.pos m) + 1 <= 53 /\
  (-1074 < e -> Z.log2 (Z.pos m) + 1 = 53) /\
  fexp prec emax (Z.pos (digits2_pos m) + e) = e.
Proof.
  unfold valid_binary, bounded, canonical_mantissa. intros H.
  apply andb_true_iff in H as [Hc Hb].
  apply Z.eqb_eq in Hc. apply Z.leb_le in Hb. change (emax - prec) with 971 in Hb.
  pose proof Hc as Hc'. rewrite fexp_eq, digits2_log2 in Hc.
  pose proof (Z.log2_spec (Z.pos m) ltac:(lia)) as Hs.
  replace (Z.succ (Z.log2 (Z.pos m))) with (Z.log2 (Z.pos m) + 1) in Hs by lia.
  repeat split; lia.
Qed.

Lemma finz_nonneg x : finz x = true -> nonneg_sf x = true.
Proof. destruct x; simpl; congruence. Qed.

Lemma val2_nonneg x : 0 <= val2 x.
Proof.
  destruct x as [s|s| |s m e]; cbn [val2]; unfold INF; try lia.
Qed.

Lemma val2_finite_lt_INF s m e :
  valid_binary (S754_finite s m e) = true -> 0 < val2 (S754_finite s m e) < INF.
Proof.
  intros H. apply valid_finite in H as (He & Hm & Hd & _ & _). simpl. unfold INF.
  assert (0 < 2 ^ (e + 2148)) by (apply Z.pow_pos_nonneg; lia).
  split; [lia|].
  apply Z.lt_le_trans with (2 ^ 53 * 2 ^ (e + 2148)).
  - apply Z.mul_lt_mono_pos_r; [assumption|].
    eapply Z.lt_le_trans; [apply Hm|]. apply Z.pow_le_mono_r; lia.
  - rewrite <- Z.pow_add_r by lia. apply Z.pow_le_mono_r; lia.
Qed.

Lemma val2_finz_lt_INF x :
  valid_binary x = true -> finz x = true -> val2 x < INF.
Proof.
  destruct x as [s|s| |s m e]; simpl finz; try discriminate; intros Hv _.
  - simpl. unfold INF. lia.
  - apply (val2_finite_lt_INF s m e Hv).
Qed.

Lemma val2_exp_lt s1 m1 e1 s2 m2 e2 :
  valid_binary (S754_finite s1 m1 e1) = true ->
  valid_binary (S754_finite s2 m2 e2) = true ->
  e1 < e2 -> val2 (S754_finite s1 m1 e1) < val2 (S754_finite s2 m2 e2).
Proof.
  intros H1 H2 Hlt.
  apply valid_finite in H1 as (He1 & Hm1 & Hd1 & _ & _).
  apply valid_finite in H2 as (He2 & Hm2 & Hd2 & Hn2 & _).
  simpl.
  assert (0 < 2 ^ (e1 + 2148)) by (apply Z.pow_pos_nonneg; lia).
  assert (0 < 2 ^ (e2 + 2148)) by (apply Z.pow_pos_nonneg; lia).
  apply Z.lt_le_trans with (2 ^ 53 * 2 ^ (e1 + 2148)).
  - apply Z.mul_lt_mono_pos_r; [assumption|].
    eapply Z.lt_le_trans; [apply Hm1|]. apply Z.pow_le_mono_r; lia.
  - apply Z.le_trans with (2 ^ 52 * 2 ^ (e2 + 2148)).
    + rewrite <- !Z.pow_add_r by lia. apply Z.pow_le_mono_r; lia.
    + apply Z.mul_le_mono_nonneg_r; [lia|].
      replace 52 with (Z.log2 (Z.pos m2)) by lia. apply Hm2.
Qed.

Lemma INF_pos : 0 < INF.
Proof. unfold INF. apply Z.pow_pos_nonneg; lia. Qed.

Lemma SFcompare_val x y :
  valid_binary x = true -> valid_binary y = true ->
  nonneg_sf x = true -> nonneg_sf y = true ->
  SFcompare x y = Some (val2 x ?= val2 y).
Proof.
  intros Hx Hy Nx Ny. pose proof INF_pos as HI.
  sf_cases x as [sx|sx| |sx mx ex] by Nx; sf_cases y as [sy|sy| |sy my ey] by Ny;
    try (pose proof (val2_finite_lt_INF _ _ _ Hx));
    try (pose proof (val2_finite_lt_INF _ _ _ Hy));
    cbn [SFcompare]; f_equal; symmetry;
    try (apply Z.compare_eq_iff; reflexivity);
    try (apply Z.compare_lt_iff; cbn [val2] in *; lia);
    try (apply Z.compare_gt_iff; cbn [val2] in *; lia).
  destruct (Z.compare_spec ex ey) as [->|Hlt|Hgt].
  - pose proof (valid_finite _ _ _ Hy) as (He & _).
    assert (0 < 2 ^ (ey + 2148)) by (apply Z.pow_pos_nonneg; lia).
    change (Pos.compare_cont Eq mx my) with (Z.pos mx ?= Z.pos my).
    cbn [val2].
    destruct (Z.compare_spec (Z.pos mx) (Z.pos my)) as [E|E|E].
    + apply Z.compare_eq_iff. congruence.
    + apply Z.compare_lt_iff. apply Z.mul_lt_mono_pos_r; assumption.
    + apply Z.compare_gt_iff. apply Z.mul_lt_mono_pos_r; assumption.
  - apply Z.compare_lt_iff. now apply val2_exp_lt.
  - apply Z.compare_gt_iff. now apply val2_exp_lt.
Qed.

Lemma SFleb_val x y :
  valid_binary x = true -> valid_binary y = true ->
  nonneg_sf x = true -> nonneg_sf y = true ->
  SFleb x y = (val2 x <=? val2 y).
Proof.
  intros. unfold SFleb. rewrite SFcompare_val by assumption.
  unfold Z.leb. destruct (val2 x ?= val2 y); reflexivity.
Qed.

Lemma SFltb_val x y :
  valid_binary x = true -> valid_binary y = true ->
  nonneg_sf x = true -> nonneg_sf y = true ->
  SFltb x y = (val2 x <? val2 y).
Proof.
  intros. unfold SFltb. rewrite SFcompare_val by assumption.
  unfold Z.ltb. destruct (val2 x ?= val2 y); reflexivity.
Qed.

Lemma RN_0 : RN 0 = 0.
Proof. vm_compute. reflexivity. Qed.

Lemma RN_val2 x :
  valid_binary x = true -> finz x = true -> RN (val2 x) = val2 x.
Proof.
  destruct x as [s|s| |s m e]; simpl finz; try discriminate; intros Hv _.
  - apply RN_0.
  - apply valid_finite in Hv as (He & Hm & Hd & Hn & Hc).
    rewrite fexp_eq, digits2_log2 in Hc.
    simpl. unfold RN.
    assert (Hu : ulp_exp (Z.pos m * 2 ^ (e + 2148)) = e + 2148).
    { unfold ulp_exp. rewrite Z.log2_mul_pow2 by lia. lia. }
    rewrite Hu, rne_exact by (apply Z.pow_pos_nonneg; lia). reflexivity.
Qed.

(** ** Multiplication, addition and subtraction of spec floats *)

Lemma iter_xO m d : Z.pos (Pos.iter xO m d) = Z.pos m * 2 ^ Z.pos d.
Proof.
  induction d as [|d IH] using Pos.peano_ind.
  - simpl. lia.
  - rewrite Pos.iter_succ, Pos2Z.inj_xO, IH, Pos2Z.inj_succ, Z.pow_succ_r by lia. lia.
Qed.

Lemma shl_align_spec mx ex ex' :
  snd (shl_align mx ex ex') = Z.min ex ex' /\
  Z.pos (fst (shl_align mx ex ex')) = Z.pos mx * 2 ^ (ex - Z.min ex ex').
Proof.
  unfold shl_align. destruct (ex' - ex) as [|d|d] eqn:E; cbn [fst snd].
  - split; [lia|]. replace (ex - Z.min ex ex') with 0 by lia. lia.
  - split; [lia|]. replace (ex - Z.min ex ex') with 0 by lia. lia.
  - split; [lia|]. rewrite iter_xO. f_equal. f_equal. lia.
Qed.

Lemma binary_round_val m e :
  -1074 <= e ->
  nonneg_sf (binary_round prec emax false m e) = true /\
  val2 (binary_round prec emax false m e) = Z.min (RN (Z.pos m * 2 ^ (e + 2148))) INF.
Proof.
  intros He. unfold binary_round.
  pose proof (shl_align_spec m e (fexp prec emax (Z.pos (digits2_pos m) + e))) as [Hs Hf].
  destruct (shl_align m e (fexp prec emax (Z.pos (digits2_pos m) + e))) as [mz ez].
  cbn [fst snd] in Hs, Hf. rewrite fexp_eq, digits2_log2 in Hs, Hf.
  assert (Hez : -1074 <= ez <= e) by lia.
  assert (Hlog : Z.log2 (Z.pos mz) = Z.log2 (Z.pos m) + (e - ez)).
  { rewrite Hf, <- Hs. rewrite Z.log2_mul_pow2 by lia. lia. }
  assert (Hval : Z.pos mz * 2 ^ (ez + 2148) = Z.pos m * 2 ^ (e + 2148)).
  { rewrite Hf, <- Hs, <- Z.mul_assoc, <- Z.pow_add_r by lia.
    f_equal. apply (f_equal (Z.pow 2)). lia. }
  rewrite <- Hval. apply binary_round_aux_val; [lia|].
  rewrite fexp_eq, digits2_log2, Hlog. lia.
Qed.

Lemma log2_mul_ge a b : 0 < a -> 0 < b -> Z.log2 a <= Z.log2 (a * b).
Proof. intros Ha Hb. apply Z.log2_le_mono. nia. Qed.

Lemma SFmul_val x y :
  valid_binary x = true -> valid_binary y = true ->
  finz x = true -> finz y = true ->
  nonneg_sf (SF64mul x y) = true /\
  exists N, 0 <= N /\ N * 2 ^ 2148 = val2 x * val2 y /\
            val2 (SF64mul x y) = Z.min (RN N) INF.
Proof.
  intros Hx Hy Fx Fy. pose proof INF_pos as HI.
  sf_cases x as [sx|sx| |sx mx ex] by Fx; sf_cases y as [sy|sy| |sy my ey] by Fy;
    try (split; [reflexivity|]; exists 0; cbn [SF64mul SFmul val2];
         rewrite RN_0; repeat split; lia).
  unfold SF64mul, SFmul. cbn [xorb].
  pose proof (valid_finite _ _ _ Hx) as (Hex & Hmx & Hdx & Hnx & _).
  pose proof (valid_finite _ _ _ Hy) as (Hey & Hmy & Hdy & Hny & _).
  assert (Hpre : ex + ey <= fexp prec emax (Z.pos (digits2_pos (mx * my)) + (ex + ey))).
  { rewrite fexp_eq, digits2_log2, Pos2Z.inj_mul.
    destruct (Z.le_gt_cases (ex + ey) (-1074)) as [|Hgt]; [lia|].
    assert (52 <= Z.log2 (Z.pos mx * Z.pos my)); [|lia].
    destruct (Z.le_gt_cases ex (-1074)).
    - rewrite Z.mul_comm. etransitivity; [|apply log2_mul_ge; lia]. lia.
    - etransitivity; [|apply log2_mul_ge; lia]. lia. }
  destruct (binary_round_aux_val (mx * my) (ex + ey) ltac:(lia) Hpre) as [Hn Hv].
  split; [exact Hn|].
  exists (Z.pos (mx * my) * 2 ^ (ex + ey + 2148)). repeat split.
  - apply Z.mul_nonneg_nonneg; [lia|]. apply Z.pow_nonneg. lia.
  - cbn [val2]. rewrite Pos2Z.inj_mul.
    replace (ex + ey + 2148) with ((ex + 2148) + (ey + 2148) - 2148) by lia.
    transitivity (Z.pos mx * Z.pos my * (2 ^ (ex + 2148 + (ey + 2148) - 2148) * 2 ^ 2148)); [lia|].
    rewrite <- Z.pow_add_r by lia.
    replace (ex + 2148 + (ey + 2148) - 2148 + 2148) with ((ex + 2148) + (ey + 2148)) by lia.
    rewrite Z.pow_add_r by lia. lia.
  - exact Hv.
Qed.

Lemma SFadd_val x y :
  valid_binary x = true -> valid_binary y = true ->
  finz x = true -> finz y = true ->
  nonneg_sf (SF64add x y) = true /\
  val2 (SF64add x y) = Z.min (RN (val2 x + val2 y)) INF.
Proof.
  intros Hx Hy Fx Fy.
  pose proof (val2_finz_lt_INF x Hx Fx) as Bx.
  pose proof (val2_finz_lt_INF y Hy Fy) as By.
  pose proof (RN_val2 x Hx Fx) as Rx. pose proof (RN_val2 y Hy Fy) as Ry.
  sf_cases x as [sx|sx| |sx mx ex] by Fx; sf_cases y as [sy|sy| |sy my ey] by Fy.
  - split; [destruct sx, sy; reflexivity|].
    replace (val2 (SF64add (S754_zero sx) (S754_zero sy))) with 0
      by (destruct sx, sy; reflexivity).
    cbn [val2]. rewrite Z.add_0_l, RN_0. pose proof INF_pos. lia.
  - unfold SF64add, SFadd. split; [reflexivity|].
    change (val2 (S754_zero sx)) with 0. rewrite Z.add_0_l, Ry. lia.
  - unfold SF64add, SFadd. split; [reflexivity|].
    change (val2 (S754_zero sy)) with 0. rewrite Z.add_0_r, Rx. lia.
  - unfold SF64add, SFadd. cbn [cond_Zopp].
    pose proof (valid_finite _ _ _ Hx) as (Hex & _).
    pose proof (valid_finite _ _ _ Hy) as (Hey & _).
    pose proof (shl_align_spec mx ex (Z.min ex ey)) as [_ Ax].
    pose proof (shl_align_spec my ey (Z.min ex ey)) as [_ Ay].
    set (ez := Z.min ex ey) in *.
    replace (Z.min ex ez) with ez in Ax by lia.
    replace (Z.min ey ez) with ez in Ay by lia.
    rewrite <- Pos2Z.inj_add. cbn [binary_normalize].
    destruct (binary_round_val
                (fst (shl_align mx ex ez) + fst (shl_align my ey ez)) ez ltac:(lia))
      as [Hn Hv].
    split; [exact Hn|]. rewrite Hv. f_equal. f_equal.
    rewrite Pos2Z.inj_add, Ax, Ay. cbn [val2].
    rewrite Z.mul_add_distr_r, <- !Z.mul_assoc, <- !Z.pow_add_r by lia.
    f_equal; f_equal; apply (f_equal (Z.pow 2)); lia.
Qed.

Lemma SFsub_val x y :
  valid_binary x = true -> valid_binary y = true ->
  finz x = true -> finz y = true ->
  val2 y <= val2 x ->
  nonneg_sf (SF64sub x y) = true /\
  val2 (SF64sub x y) = RN (val2 x - val2 y).
Proof.
  intros Hx Hy Fx Fy Hle.
  pose proof (val2_finz_lt_INF x Hx Fx) as Bx.
  pose proof (RN_val2 x Hx Fx) as Rx.
  sf_cases x as [sx|sx| |sx mx ex] by Fx; sf_cases y as [sy|sy| |sy my ey] by Fy.
  - split; [destruct sx, sy; reflexivity|].
    replace (val2 (SF64sub (S754_zero sx) (S754_zero sy))) with 0
      by (destruct sx, sy; reflexivity).
    cbn [val2]. rewrite Z.sub_0_r, RN_0. reflexivity.
  - exfalso. pose proof (val2_finite_lt_INF _ _ _ Hy). cbn [val2] in *. lia.
  - unfold SF64sub, SFsub. split; [reflexivity|].
    change (val2 (S754_zero sy)) with 0. rewrite Z.sub_0_r, Rx. reflexivity.
  - unfold SF64sub, SFsub. cbn [cond_Zopp].
    pose proof (valid_finite _ _ _ Hx) as (Hex & _).
    pose proof (valid_finite _ _ _ Hy) as (Hey & _).
    pose proof (shl_align_spec mx ex (Z.min ex ey)) as [_ Ax].
    pose proof (shl_align_spec my ey (Z.min ex ey)) as [_ Ay].
    set (ez := Z.min ex ey) in *.
    replace (Z.min ex ez) with ez in Ax by lia.
    replace (Z.min ey ez) with ez in Ay by lia.
    assert (Hp : 0 < 2 ^ (ez + 2148)) by (apply Z.pow_pos_nonneg; lia).
    assert (Hval : (Z.pos (fst (shl_align mx ex ez)) - Z.pos (fst (shl_align my ey ez)))
                   * 2 ^ (ez + 2148)
                   = val2 (S754_finite false mx ex) - val2 (S754_finite false my ey)).
    { rewrite Ax, Ay. cbn [val2].
      rewrite Z.mul_sub_distr_r, <- !Z.mul_assoc, <- !Z.pow_add_r by lia.
      f_equal; f_equal; apply (f_equal (Z.pow 2)); lia. }
    rewrite <- Hval.
    destruct (Z.pos (fst (shl_align mx ex ez)) - Z.pos (fst (shl_align my ey ez)))
      as [|M|M] eqn:EM.
    + cbn [binary_normalize]. split; [reflexivity|]. cbn [val2].
      rewrite Z.mul_0_l, RN_0. reflexivity.
    + cbn [binary_normalize].
      destruct (binary_round_val M ez ltac:(lia)) as [Hn Hv].
      split; [exact Hn|]. rewrite Hv. apply Z.min_l.
      rewrite Hval. etransitivity; [apply RN_mono|].
      * pose proof (val2_nonneg (S754_finite false my ey)). lia.
      * instantiate (1 := val2 (S754_finite false mx ex)).
        pose proof (val2_nonneg (S754_finite false my ey)). lia.
      * rewrite Rx. lia.
    + exfalso. nia.
Qed.

(** ** Division of an integer by an integer *)

Lemma new_location_rem D r :
  0 < D -> 0 <= r < D -> new_location D r = loc_of_rem r D.
Proof.
  intros HD Hr. unfold new_location, new_location_even, new_location_odd, loc_of_rem.
  destruct (Z.even D) eqn:Ev; [reflexivity|].
  destruct (r =? 0); [reflexivity|]. f_equal.
  pose proof (Zmod_even D) as Hm. rewrite Ev in Hm. cbv iota in Hm.
  pose proof (Z.div_mod D 2 ltac:(lia)) as Hdm.
  destruct (Z.compare_spec (2 * r + 1) D), (Z.compare_spec (2 * r) D);
    try reflexivity; lia.
Qed.

Lemma SFdiv_integers k D :
  Z.pos D < 2 ^ 1074 ->
  nonneg_sf (SFdiv prec emax (S754_finite false k 0) (S754_finite false D 0)) = true /\
  valid_binary (SFdiv prec emax (S754_finite false k 0) (S754_finite false D 0)) = true /\
  val2 (SFdiv prec emax (S754_finite false k 0) (S754_finite false D 0)) =
    Z.min (RNq (Z.pos k * 2 ^ 2148) (Z.pos D)) INF.
Proof.
  intros HD. unfold SFdiv, SFdiv_core_binary. cbn [xorb].
  change (Zdigits2 (Z.pos k)) with (Z.pos (digits2_pos k)).
  change (Zdigits2 (Z.pos D)) with (Z.pos (digits2_pos D)).
  rewrite !digits2_log2, fexp_eq, !Z.add_0_r, Z.sub_0_r.
  set (d1 := Z.log2 (Z.pos k) + 1). set (d2 := Z.log2 (Z.pos D) + 1).
  remember (Z.min (Z.max (d1 - d2 - 53) (-1074)) 0) as e' eqn:He'.
  pose proof (Z.log2_spec (Z.pos k) ltac:(lia)) as [Hk _]. fold d1 in Hk.
  replace (Z.log2 (Z.pos k)) with (d1 - 1) in Hk by (unfold d1; lia).
  pose proof (Z.log2_spec (Z.pos D) ltac:(lia)) as [_ HD2].
  replace (Z.succ (Z.log2 (Z.pos D))) with d2 in HD2 by (unfold d2; lia).
  assert (Hd1 : 1 <= d1) by (pose proof (Z.log2_nonneg (Z.pos k)); unfold d1; lia).
  assert (Hd2 : 1 <= d2 <= 1074).
  { pose proof (Z.log2_nonneg (Z.pos D)).
    assert (Z.log2 (Z.pos D) < 1074) by (apply Z.log2_lt_pow2; lia). unfold d2. lia. }
  assert (Hm' : match 0 - e' with
                | Z.pos _ => Z.shiftl (Z.pos k) (0 - e')
                | 0 => Z.pos k
                | Z.neg _ => 0
                end = Z.pos k * 2 ^ (- e')).
  { replace (0 - e') with (- e') by lia.
    destruct (- e') as [|s|s] eqn:Es; try lia.
    apply Z.shiftl_mul_pow2. lia. }
  rewrite Hm'. clear Hm'.
  set (a := Z.pos k * 2 ^ (- e')).
  assert (Hs : 0 <= - e') by lia.
  assert (Hps : 0 < 2 ^ (- e')) by (apply Z.pow_pos_nonneg; lia).
  assert (Ha : 0 <= a) by (unfold a; lia).
  assert (Hx : 0 <= d1 - 1 + (- e') - d2) by lia.
  assert (Hlow : Z.pos D * 2 ^ (d1 - 1 + (- e') - d2) <= a).
  { apply Z.le_trans with (2 ^ d2 * 2 ^ (d1 - 1 + (- e') - d2)).
    - apply Z.mul_le_mono_nonneg_r; [apply Z.pow_nonneg|]; lia.
    - rewrite <- Z.pow_add_r by lia.
      replace (d2 + (d1 - 1 + - e' - d2)) with ((d1 - 1) + (- e')) by lia.
      rewrite Z.pow_add_r by lia. unfold a.
      apply Z.mul_le_mono_nonneg_r; lia. }
  assert (Hq : 2 ^ (d1 - 1 + (- e') - d2) <= a / Z.pos D).
  { apply Z.div_le_lower_bound; [lia|]. exact Hlow. }
  assert (Hq0 : 0 < a / Z.pos D).
  { eapply Z.lt_le_trans; [|exact Hq]. apply Z.pow_pos_nonneg; lia. }
  destruct (Z.div_eucl a (Z.pos D)) as [q r] eqn:E.
  assert (Eq : q = a / Z.pos D) by (unfold Z.div; rewrite E; reflexivity).
  assert (Er : r = a mod Z.pos D) by (unfold Z.modulo; rewrite E; reflexivity).
  subst q r.
  rewrite new_location_rem by (try apply Z.mod_pos_bound; lia).
  destruct (binary_round_aux_gen a (Z.pos D) e') as (Hn & Hv & Hval);
    try assumption; try lia.
  - rewrite Zdigits2_log2, fexp_eq by assumption.
    assert (d1 - 1 + - e' - d2 <= Z.log2 (a / Z.pos D)); [|lia].
    apply Z.log2_le_pow2; assumption.
  - split; [exact Hn|]. split; [exact Hv|]. rewrite Hval. f_equal. f_equal.
    unfold a. rewrite <- Z.mul_assoc, <- Z.pow_add_r by lia.
    f_equal. apply (f_equal (Z.pow 2)). lia.
Qed.

(** ** Primitive floats that are not negative *)

Lemma fz_nn x : fz x -> nn x.
Proof. apply finz_nonneg. Qed.

Lemma le_val x y : nn x -> nn y -> py_le x y = (val x <=? val y).
Proof.
  intros Hx Hy. unfold py_le. rewrite leb_spec.
  apply SFleb_val; auto with floats.
Qed.

Lemma lt_val x y : nn x -> nn y -> py_lt x y = (val x <? val y).
Proof.
  intros Hx Hy. unfold py_lt. rewrite ltb_spec.
  apply SFltb_val; auto with floats.
Qed.

Lemma le_0_nn x : py_le 0 x = true -> nn x.
Proof.
  unfold py_le, nn. rewrite leb_spec. change (Prim2SF 0) with (S754_zero false).
  destruct (Prim2SF x) as [s|s| |s m e]; try reflexivity; try discriminate;
    destruct s; try reflexivity; discriminate.
Qed.

Lemma nn_le_0 x : nn x -> py_le 0 x = true.
Proof.
  intros H. rewrite le_val; [|reflexivity|assumption].
  apply Z.leb_le. apply val2_nonneg.
Qed.

Lemma le_fz x B : nn x -> fz B -> py_le x B = true -> fz x.
Proof.
  intros Hx HB H. rewrite le_val in H by auto using fz_nn.
  apply Z.leb_le in H.
  pose proof (val2_finz_lt_INF _ (Prim2SF_valid B) HB) as HI.
  unfold fz, nn, val in *. destruct (Prim2SF x) as [s|s| |s m e]; cbn in *;
    try assumption; try discriminate. lia.
Qed.

Lemma le_trans_nn x y z :
  nn x -> nn y -> nn z -> py_le x y = true -> py_le y z = true -> py_le x z = true.
Proof.
  intros Hx Hy Hz. rewrite !le_val by assumption. rewrite !Z.leb_le. lia.
Qed.

Lemma mul_nn x y : fz x -> fz y -> nn (x * y).
Proof.
  intros Hx Hy. unfold nn. rewrite mul_spec.
  apply SFmul_val; auto with floats.
Qed.

Lemma mul_le_mono x x' y y' :
  fz x -> fz x' -> fz y -> fz y' ->
  py_le x x' = true -> py_le y y' = true -> py_le (x * y) (x' * y') = true.
Proof.
  intros Hx Hx' Hy Hy' Lx Ly.
  rewrite le_val in Lx, Ly by auto using fz_nn. apply Z.leb_le in Lx, Ly.
  rewrite le_val by auto using mul_nn. apply Z.leb_le.
  unfold val in *. rewrite !mul_spec.
  destruct (SFmul_val (Prim2SF x) (Prim2SF y)) as (_ & N & HN0 & HN & ->);
    auto with floats.
  destruct (SFmul_val (Prim2SF x') (Prim2SF y')) as (_ & N' & HN0' & HN' & ->);
    auto with floats.
  apply Z.min_le_compat_r, RN_mono; [assumption|].
  pose proof (val2_nonneg (Prim2SF x)). pose proof (val2_nonneg (Prim2SF y)).
  assert (N * 2 ^ 2148 <= N' * 2 ^ 2148).
  { rewrite HN, HN'. apply Z.mul_le_mono_nonneg; lia. }
  assert (0 < 2 ^ 2148) by (apply Z.pow_pos_nonneg; lia).
  nia.
Qed.

Lemma add_nn x y : fz x -> fz y -> nn (x + y).
Proof.
  intros Hx Hy. unfold nn. rewrite add_spec.
  apply SFadd_val; auto with floats.
Qed.

Lemma add_le_mono x x' y y' :
  fz x -> fz x' -> fz y -> fz y' ->
  py_le x x' = true -> py_le y y' = true -> py_le (x + y) (x' + y') = true.
Proof.
  intros Hx Hx' Hy Hy' Lx Ly.
  rewrite le_val in Lx, Ly by auto using fz_nn. apply Z.leb_le in Lx, Ly.
  rewrite le_val by auto using add_nn. apply Z.leb_le.
  unfold val in *. rewrite !add_spec.
  destruct (SFadd_val (Prim2SF x) (Prim2SF y)) as [_ ->]; auto with floats.
  destruct (SFadd_val (Prim2SF x') (Prim2SF y')) as [_ ->]; auto with floats.
  pose proof (val2_nonneg (Prim2SF x)). pose proof (val2_nonneg (Prim2SF y)).
  apply Z.min_le_compat_r, RN_mono; lia.
Qed.

Lemma sub_le_self x y :
  fz x -> fz y -> py_le y x = true -> nn (x - y) /\ py_le (x - y) x = true.
Proof.
  intros Hx Hy L.
  rewrite le_val in L by auto using fz_nn. apply Z.leb_le in L.
  unfold val in L.
  destruct (SFsub_val (Prim2SF x) (Prim2SF y)) as [Hn Hv]; auto with floats.
  rewrite <- sub_spec in Hn, Hv.
  split; [exact Hn|].
  rewrite le_val by auto using fz_nn. apply Z.leb_le. unfold val. rewrite Hv.
  rewrite <- (RN_val2 (Prim2SF x)) at 2 by auto with floats.
  pose proof (val2_nonneg (Prim2SF y)). apply RN_mono; lia.
Qed.

(** ** Bounds of the weighted score *)

Lemma upto_fz x X : fz X -> upto x X -> fz x.
Proof. intros HX [Hn Hl]. exact (le_fz x X Hn HX Hl). Qed.

Lemma in01_upto x : in01 x -> upto x 1.
Proof. intros [H0 H1]. split; [apply le_0_nn, H0 | exact H1]. Qed.

Lemma upto_mul x X y Y :
  fz X -> fz Y -> upto x X -> upto y Y -> upto (x * y) (X * Y).
Proof.
  intros HX HY Hx Hy.
  pose proof (upto_fz _ _ HX Hx). pose proof (upto_fz _ _ HY Hy).
  split; [now apply mul_nn|]. apply mul_le_mono; try assumption; [apply Hx | apply Hy].
Qed.

Lemma upto_add x X y Y :
  fz X -> fz Y -> upto x X -> upto y Y -> upto (x + y) (X + Y).
Proof.
  intros HX HY Hx Hy.
  pose proof (upto_fz _ _ HX Hx). pose proof (upto_fz _ _ HY Hy).
  split; [now apply add_nn|]. apply add_le_mono; try assumption; [apply Hx | apply Hy].
Qed.

Lemma upto_refl X : fz X -> upto X X.
Proof.
  intros HX. split; [now apply fz_nn|].
  rewrite le_val by now apply fz_nn. apply Z.leb_le. lia.
Qed.

Lemma upto_one_minus c : upto c 1 -> upto (1 - c) 1.
Proof.
  intros Hc. assert (F1 : fz 1) by reflexivity.
  pose proof (upto_fz _ _ F1 Hc) as Fc.
  destruct (sub_le_self 1 c F1 Fc (proj2 Hc)) as [Hn Hl]. now split.
Qed.

Lemma score_python_bounds p i e c :
  in01 p -> in01 i -> in01 e -> in01 c ->
  in01 (calculate_priority_python p i e c).
Proof.
  intros Hp Hi He Hc. unfold calculate_priority_python.
  apply in01_upto in Hp, Hi, He, Hc. apply upto_one_minus in Hc.
  assert (F1 : fz 1) by reflexivity.
  pose proof (upto_mul _ _ _ _ F1 (eq_refl : fz 0.4) Hp (upto_refl 0.4 eq_refl)) as H1.
  pose proof (upto_mul _ _ _ _ F1 (eq_refl : fz 0.3) Hi (upto_refl 0.3 eq_refl)) as H2.
  pose proof (upto_mul _ _ _ _ F1 (eq_refl : fz 0.2) He (upto_refl 0.2 eq_refl)) as H3.
  pose proof (upto_mul _ _ _ _ F1 (eq_refl : fz 0.1) Hc (upto_refl 0.1 eq_refl)) as H4.
  pose proof (upto_add _ _ _ _ (eq_refl : fz (1 * 0.4)) (eq_refl : fz (1 * 0.3)) H1 H2) as H12.
  pose proof (upto_add _ _ _ _ (eq_refl : fz (1 * 0.4 + 1 * 0.3)) (eq_refl : fz (1 * 0.2))
                H12 H3) as H123.
  pose proof (upto_add _ _ _ _ (eq_refl : fz (1 * 0.4 + 1 * 0.3 + 1 * 0.2))
                (eq_refl : fz (1 * 0.1)) H123 H4) as [Hn Hl].
  split; [now apply nn_le_0|].
  eapply le_trans_nn; [exact Hn | | | exact Hl | ]; reflexivity.
Qed.

(** ** Comparisons of arbitrary floats *)

Lemma SFcompare_antisym x y :
  SFcompare y x = option_map CompOpp (SFcompare x y).
Proof.
  destruct x as [sx|sx| |sx mx ex], y as [sy|sy| |sy my ey]; cbn [SFcompare option_map];
    try reflexivity;
    try (destruct sx; reflexivity); try (destruct sy; reflexivity);
    try (destruct sx, sy; reflexivity).
  destruct sx, sy; try reflexivity; f_equal;
    rewrite (Z.compare_antisym ex ey); destruct (ex ?= ey); cbn [CompOpp];
    try reflexivity.
  - rewrite !Pos.compare_cont_antisym. reflexivity.
  - rewrite Pos.compare_cont_antisym. reflexivity.
Qed.

Lemma SFcompare_None x y :
  SFcompare x y = None -> x = S754_nan \/ y = S754_nan.
Proof.
  destruct x as [sx|sx| |sx mx ex], y as [sy|sy| |sy my ey]; cbn [SFcompare];
    intros H; try discriminate H; auto.
Qed.

Lemma is_nan_Prim2SF x : is_nan x = true <-> Prim2SF x = S754_nan.
Proof.
  split; intros H.
  - unfold Prim2SF. destruct (is_nan x); [reflexivity | discriminate H].
  - unfold is_nan. rewrite FloatAxioms.eqb_spec, H. reflexivity.
Qed.

Lemma not_nan_Prim2SF x : is_nan x = false <-> Prim2SF x <> S754_nan.
Proof.
  rewrite <- is_nan_Prim2SF. destruct (is_nan x); split; congruence.
Qed.

(** for numbers, [a < b] is the negation of [b <= a] *)
Lemma lt_not_le a b :
  is_nan a = false -> is_nan b = false -> py_lt a b = negb (py_le b a).
Proof.
  rewrite !not_nan_Prim2SF. intros Ha Hb. unfold py_lt, py_le.
  rewrite ltb_spec, leb_spec. unfold SFltb, SFleb.
  rewrite (SFcompare_antisym (Prim2SF a) (Prim2SF b)).
  destruct (SFcompare (Prim2SF a) (Prim2SF b)) as [[]|] eqn:E; try reflexivity.
  apply SFcompare_None in E. tauto.
Qed.

Lemma lt_le a b : py_lt a b = true -> py_le a b = true.
Proof.
  unfold py_lt, py_le. rewrite ltb_spec, leb_spec. unfold SFltb, SFleb.
  destruct (SFcompare (Prim2SF a) (Prim2SF b)) as [[]|]; congruence.
Qed.

Lemma lt_asym a b : py_lt a b = true -> py_lt b a = false.
Proof.
  unfold py_lt. rewrite !ltb_spec. unfold SFltb.
  rewrite (SFcompare_antisym (Prim2SF a) (Prim2SF b)).
  destruct (SFcompare (Prim2SF a) (Prim2SF b)) as [[]|]; cbn; congruence.
Qed.

Lemma SFcompare_Eq_finite x s m e :
  SFcompare x (S754_finite s m e) = Some Eq -> x = S754_finite s m e.
Proof.
  destruct x as [sx|sx| |sx mx ex]; cbn [SFcompare]; intros H;
    try discriminate H; try (destruct s; discriminate H);
    try (destruct sx; discriminate H).
  injection H as H.
  destruct sx, s; try discriminate H;
    destruct (Z.compare_spec ex e) as [->|?|?]; try discriminate H;
    change (Pos.compare_cont Eq mx m) with (Pos.compare mx m) in H;
    destruct (Pos.compare_spec mx m) as [->|?|?]; try discriminate H; reflexivity.
Qed.

(** a number that is neither below nor above a finite non-zero float is that float *)
Lemma eq_of_not_lt x c s m e :
  Prim2SF c = S754_finite s m e ->
  is_nan x = false -> py_lt x c = false -> py_lt c x = false -> x = c.
Proof.
  intros Hc Hx H1 H2. apply Prim2SF_inj. rewrite Hc.
  apply SFcompare_Eq_finite. rewrite <- Hc.
  apply not_nan_Prim2SF in Hx.
  unfold py_lt in H1, H2. rewrite ltb_spec in H1, H2. unfold SFltb in H1, H2.
  rewrite (SFcompare_antisym (Prim2SF x) (Prim2SF c)) in H2.
  destruct (SFcompare (Prim2SF x) (Prim2SF c)) as [[]|] eqn:E;
    try reflexivity; try discriminate.
  apply SFcompare_None in E. rewrite Hc in E. destruct E; congruence.
Qed.

(** ** Sign of a product with a positive float *)

Lemma binary_round_aux_opp m e l :
  binary_round_aux prec emax true m e l = SFopp (binary_round_aux prec emax false m e l).
Proof.
  unfold binary_round_aux.
  destruct (shr_fexp prec emax m e l) as [mrs e'].
  destruct (shr_fexp prec emax _ e' loc_Exact) as [mrs' e''].
  destruct (shr_m mrs'); try reflexivity.
  destruct (e'' <=? emax - prec); reflexivity.
Qed.

(** the product of a negative number and a positive finite float is the
    opposite of a non-negative one *)
Lemma SFmul_negative x my ey :
  valid_binary x = true -> valid_binary (S754_finite false my ey) = true ->
  x <> S754_nan -> nonneg_sf x = false ->
  exists r, nonneg_sf r = true /\ SF64mul x (S754_finite false my ey) = SFopp r.
Proof.
  intros Hx Hy Hn Nx.
  destruct x as [sx|sx| |sx mx ex]; cbn in Nx; try discriminate Nx; try congruence;
    apply negb_false_iff in Nx; subst sx.
  - exists (S754_infinity false). split; reflexivity.
  - exists (SF64mul (S754_finite false mx ex) (S754_finite false my ey)). split.
    + apply SFmul_val; try assumption; reflexivity.
    + unfold SF64mul, SFmul. cbn [xorb]. apply binary_round_aux_opp.
Qed.

Lemma SFopp_nonneg_not_nan r : nonneg_sf r = true -> SFopp r <> S754_nan.
Proof. destruct r; cbn; congruence. Qed.

Lemma SFltb_finite_opp m e r :
  nonneg_sf r = true -> SFltb (S754_finite false m e) (SFopp r) = false.
Proof.
  destruct r as [sr|sr| |sr mr er]; cbn; try discriminate; intros H;
    try reflexivity; apply negb_true_iff in H; subst sr; reflexivity.
Qed.

Lemma Prim2SF_100 : Prim2SF 100 = hundred_sf.
Proof. vm_compute. reflexivity. Qed.

Lemma nn_or_negative s :
  is_nan s = true \/ nn s \/
  exists r, nonneg_sf r = true /\ Prim2SF (s * 100) = SFopp r.
Proof.
  destruct (is_nan s) eqn:En; [now left|right].
  apply not_nan_Prim2SF in En.
  destruct (nonneg_sf (Prim2SF s)) eqn:Nn; [now left|right].
  rewrite mul_spec, Prim2SF_100. apply SFmul_negative; auto with floats.
Qed.

Lemma nn_fz_or_inf s : nn s -> fz s \/ s = infinity.
Proof.
  unfold nn, fz. intros H.
  destruct (Prim2SF s) as [sx|sx| |sx mx ex] eqn:E; cbn in H |- *;
    try discriminate H; auto.
  right. apply negb_true_iff in H. subst sx. apply Prim2SF_inj. rewrite E. reflexivity.
Qed.

Lemma nn_not_nan s : nn s -> is_nan s = false.
Proof.
  unfold nn. intros H. apply not_nan_Prim2SF. destruct (Prim2SF s); cbn in H; congruence.
Qed.

Lemma mul100_not_nan s : is_nan s = false -> is_nan (s * 100) = false.
Proof.
  intros Hs. destruct (nn_or_negative s) as [H|[H|(r & Hr & E)]].
  - congruence.
  - destruct (nn_fz_or_inf s H) as [F| ->]; [|reflexivity].
    apply nn_not_nan, mul_nn; [assumption | reflexivity].
  - apply not_nan_Prim2SF. rewrite E. now apply SFopp_nonneg_not_nan.
Qed.

Lemma gt10_mul100_nn s : py_gt (s * 100) 10 = true -> nn s.
Proof.
  intros G. destruct (nn_or_negative s) as [H|[H|(r & Hr & E)]].
  - exfalso. apply is_nan_Prim2SF in H.
    unfold py_gt in G. rewrite ltb_spec, mul_spec, H in G. discriminate G.
  - assumption.
  - exfalso. unfold py_gt in G. rewrite ltb_spec, E in G.
    change (Prim2SF 10) with (S754_finite false 5629499534213120 (-49)) in G.
    rewrite SFltb_finite_opp in G by assumption. discriminate G.
Qed.

Lemma nn_le_nn a b : nn a -> py_le a b = true -> nn b.
Proof.
  unfold nn, py_le. rewrite leb_spec. unfold SFleb.
  destruct (Prim2SF a) as [sa|sa| |sa ma ea], (Prim2SF b) as [sb|sb| |sb mb eb];
    cbn; try congruence; intros Ha; try (apply negb_true_iff in Ha; subst sa);
    destruct sb; cbn; congruence.
Qed.

(** ** The allocation *)

Lemma clampf_range x : py_le 10 (clampf x) = true /\ py_le (clampf x) 100 = true.
Proof.
  unfold clampf, py_max, py_min.
  destruct (py_gt x 10) eqn:G.
  - destruct (py_lt x 100) eqn:L.
    + split; [apply lt_le, G | apply lt_le, L].
    + split; reflexivity.
  - change (py_lt 10 100) with true. cbv iota. split; reflexivity.
Qed.

Lemma clampf_low x : py_gt x 10 = false -> clampf x = 10%float.
Proof. unfold clampf, py_max, py_min. intros ->. reflexivity. Qed.

Lemma clampf_mono x y :
  nn x -> nn y -> py_le x y = true -> py_le (clampf x) (clampf y) = true.
Proof.
  intros Hx Hy L. rewrite le_val in L by assumption. apply Z.leb_le in L.
  assert (N10 : nn 10) by reflexivity. assert (N100 : nn 100) by reflexivity.
  assert (H : val 10 <= val 100) by (apply Z.leb_le; rewrite <- le_val by assumption; reflexivity).
  unfold clampf, py_max, py_min, py_gt.
  rewrite !(lt_val 10) by assumption.
  destruct (Z.ltb_spec (val 10) (val x)), (Z.ltb_spec (val 10) (val y));
    rewrite ?(lt_val x), ?(lt_val y), ?(lt_val 10) by assumption;
    repeat match goal with
           | |- context [?a <? ?b] => destruct (Z.ltb_spec a b)
           end;
    rewrite le_val by assumption; apply Z.leb_le; lia.
Qed.

Lemma allocation_range s :
  py_le 10 (allocation_of_score s) = true /\ py_le (allocation_of_score s) 100 = true.
Proof. apply clampf_range. Qed.

Lemma allocation_mono s1 s2 :
  py_le s1 s2 = true -> py_le (allocation_of_score s1) (allocation_of_score s2) = true.
Proof.
  intros L. unfold allocation_of_score. fold (clampf (s1 * 100)) (clampf (s2 * 100)).
  destruct (py_gt (s1 * 100) 10) eqn:G.
  - pose proof (gt10_mul100_nn s1 G) as N1.
    pose proof (nn_le_nn s1 s2 N1 L) as N2.
    destruct (nn_fz_or_inf s2 N2) as [F2| ->].
    + pose proof (le_fz s1 s2 N1 F2 L) as F1.
      apply clampf_mono; try (apply mul_nn; [assumption|reflexivity]).
      apply mul_le_mono; try assumption; reflexivity.
    + change (clampf (infinity * 100)) with 100%float. apply clampf_range.
  - rewrite (clampf_low _ G). apply clampf_range.
Qed.

Lemma clampf_clamp x : is_nan x = false -> clampf x = clamp x 10 100.
Proof.
  intros Hx. unfold clampf, clamp, py_min, py_max.
  destruct (py_lt x 10) eqn:L10.
  - rewrite (lt_asym _ _ L10 : py_gt x 10 = false). reflexivity.
  - destruct (py_gt x 10) eqn:G10.
    + destruct (py_lt x 100) eqn:L100.
      * rewrite (lt_asym _ _ L100 : py_gt x 100 = false). reflexivity.
      * destruct (py_gt x 100) eqn:G100; [reflexivity|].
        symmetry. eapply eq_of_not_lt; try eassumption. reflexivity.
    + assert (E : x = 10%float)
        by (eapply eq_of_not_lt; try eassumption; reflexivity).
      subst x. reflexivity.
Qed.

(** ** Commutativity of the product *)

Lemma SFmul_comm x y : SF64mul x y = SF64mul y x.
Proof.
  destruct x as [sx|sx| |sx mx ex], y as [sy|sy| |sy my ey]; cbn [SF64mul SFmul];
    try reflexivity; rewrite (xorb_comm sx sy); try reflexivity.
  rewrite (Pos.mul_comm mx my), (Z.add_comm ex ey). reflexivity.
Qed.

Lemma float_mul_comm (x y : float) : (x * y = y * x)%float.
Proof. apply Prim2SF_inj. rewrite !mul_spec. apply SFmul_comm. Qed.

(** ** Decimal rounding *)

Lemma scaled_decimal_val s m e n :
  -2148 <= e ->
  scaled_decimal m e n =
  round_half_even_div (val2 (S754_finite s m e) * 10 ^ Z.of_nat n) (2 ^ 2148).
Proof.
  intros He. unfold scaled_decimal. cbn [val2].
  assert (0 < 2 ^ 2148) by (apply Z.pow_pos_nonneg; lia).
  destruct (Z.leb_spec 0 e) as [H0|H0].
  - replace (Z.pos m * 2 ^ (e + 2148) * 10 ^ Z.of_nat n)
      with (Z.pos m * 2 ^ e * 10 ^ Z.of_nat n * 2 ^ 2148)
      by (rewrite Z.pow_add_r by lia; ring).
    now rewrite rne_exact.
  - assert (0 < 2 ^ (e + 2148)) by (apply Z.pow_pos_nonneg; lia).
    assert (0 < 2 ^ (- e)) by (apply Z.pow_pos_nonneg; lia).
    rewrite <- (rne_scale (Z.pos m * 10 ^ Z.of_nat n) (2 ^ (- e)) (2 ^ (e + 2148)))
      by assumption.
    rewrite <- Z.pow_add_r by lia. replace (- e + (e + 2148)) with 2148 by lia.
    f_equal. ring.
Qed.

Lemma decimal_of_nonneg x n : 0 <= decimal_of x n.
Proof.
  unfold decimal_of. apply (rne_ge_int _ _ 0); [apply Z.pow_pos_nonneg; lia|].
  pose proof (val2_nonneg (Prim2SF x)). unfold val.
  pose proof (Z.pow_nonneg 10 (Z.of_nat n) ltac:(lia)). nia.
Qed.

Lemma decimal_of_mono x y n :
  nn x -> nn y -> py_le x y = true -> decimal_of x n <= decimal_of y n.
Proof.
  intros Hx Hy L. rewrite le_val in L by assumption. apply Z.leb_le in L.
  unfold decimal_of. apply rne_mono; [apply Z.pow_pos_nonneg; lia|].
  apply Z.mul_le_mono_nonneg_r; [apply Z.pow_nonneg; lia | exact L].
Qed.

Lemma pow10_bound n : (n <= 323)%nat -> 0 < 10 ^ Z.of_nat n < 2 ^ 1074.
Proof.
  intros Hn. split; [apply Z.pow_pos_nonneg; lia|].
  apply Z.le_lt_trans with (10 ^ 323); [apply Z.pow_le_mono_r; lia|].
  apply Z.ltb_lt. vm_compute. reflexivity.
Qed.

Lemma rne_zero b : 0 < b -> round_half_even_div 0 b = 0.
Proof. intros Hb. exact (rne_exact 0 b Hb). Qed.

Lemma RNq_0 b : 0 < b -> RNq 0 b = 0.
Proof.
  intros Hb. unfold RNq. rewrite rne_zero; [reflexivity|].
  apply Z.mul_pos_pos; [assumption|]. apply Z.pow_pos_nonneg; unfold ulpq; lia.
Qed.

Lemma val_le_INF x : nn x -> val x <= INF.
Proof.
  unfold nn, val. intros H. pose proof (Prim2SF_valid x) as Hv. pose proof INF_pos.
  destruct (Prim2SF x) as [s|s| |s m e]; cbn [val2]; try lia.
  pose proof (val2_finite_lt_INF s m e Hv). cbn [val2] in *. lia.
Qed.

(** the float nearest to the decimal [k / 10^n], by its value *)
Lemma float_of_decimal_val k n :
  0 <= k -> (n <= 323)%nat ->
  nn (float_of_decimal k n) /\
  val (float_of_decimal k n) = Z.min (RNq (k * 2 ^ 2148) (10 ^ Z.of_nat n)) INF.
Proof.
  intros Hk Hn. destruct (pow10_bound n Hn) as [Hp Hb].
  unfold nn, val, float_of_decimal, decimal_to_float.
  destruct k as [|k|k]; try lia.
  - rewrite Prim2SF_SF2Prim by reflexivity. split; [reflexivity|].
    cbn [val2]. rewrite Z.mul_0_l, RNq_0 by assumption. pose proof INF_pos. lia.
  - destruct (SFdiv_integers k (Z.to_pos (10 ^ Z.of_nat n))) as (Hnn & Hv & Hval).
    { rewrite Z2Pos.id by assumption. exact Hb. }
    rewrite Prim2SF_SF2Prim by exact Hv. split; [exact Hnn|].
    rewrite Hval, Z2Pos.id by assumption. reflexivity.
Qed.

Lemma round_decimal x n :
  fz x -> py_round x n = x /\ val x = 0 \/
          py_round x n = float_of_decimal (decimal_of x n) n.
Proof.
  unfold fz, py_round, decimal_of, val, float_of_decimal. intros Hx.
  pose proof (Prim2SF_valid x) as Hv.
  destruct (Prim2SF x) as [s|s| |s m e]; try discriminate Hx; [left; now split|right].
  simpl in Hx. apply negb_true_iff in Hx. subst s.
  apply valid_finite in Hv as (He & _).
  rewrite (scaled_decimal_val false) by lia. reflexivity.
Qed.

Lemma py_round_val x n :
  fz x -> (n <= 323)%nat ->
  nn (py_round x n) /\
  val (py_round x n) =
    Z.min (RNq (decimal_of x n * 2 ^ 2148) (10 ^ Z.of_nat n)) INF.
Proof.
  intros Fx Hn. destruct (round_decimal x n Fx) as [[-> E] | ->].
  - split; [now apply fz_nn|].
    assert (D : decimal_of x n = 0).
    { unfold decimal_of. rewrite E. apply rne_zero, Z.pow_pos_nonneg; lia. }
    rewrite D, E, Z.mul_0_l, RNq_0 by apply (pow10_bound n Hn).
    pose proof INF_pos. lia.
  - apply float_of_decimal_val; [apply decimal_of_nonneg | exact Hn].
Qed.

Lemma py_round_infinity n : py_round infinity n = infinity.
Proof. reflexivity. Qed.

(** rounding to decimals does not change the order *)
Lemma py_round_mono x y n :
  (n <= 323)%nat -> nn x -> py_le x y = true ->
  nn (py_round x n) /\ nn (py_round y n) /\
  py_le (py_round x n) (py_round y n) = true.
Proof.
  intros Hn Nx L. pose proof (nn_le_nn x y Nx L) as Ny.
  destruct (nn_fz_or_inf y Ny) as [Fy | ->].
  - pose proof (le_fz x y Nx Fy L) as Fx.
    destruct (py_round_val x n Fx Hn) as [Rx Vx].
    destruct (py_round_val y n Fy Hn) as [Ry Vy].
    split; [exact Rx|]. split; [exact Ry|].
    rewrite le_val by assumption. apply Z.leb_le. rewrite Vx, Vy.
    apply Z.min_le_compat_r, RNq_mono; [apply (pow10_bound n Hn) | |].
    + pose proof (decimal_of_nonneg x n). apply Z.mul_nonneg_nonneg; [lia|].
      apply Z.pow_nonneg. lia.
    + apply Z.mul_le_mono_nonneg_r; [apply Z.pow_nonneg; lia|].
      now apply decimal_of_mono.
  - rewrite py_round_infinity.
    assert (Rx : nn (py_round x n)).
    { destruct (nn_fz_or_inf x Nx) as [Fx | ->]; [apply (py_round_val x n Fx Hn)|].
      rewrite py_round_infinity. reflexivity. }
    split; [exact Rx|]. split; [reflexivity|].
    rewrite le_val by (assumption || reflexivity). apply Z.leb_le.
    now apply val_le_INF.
Qed.

Lemma py_round_between x n lo hi :
  (n <= 323)%nat -> nn lo ->
  py_le lo x = true -> py_le x hi = true ->
  py_le (py_round lo n) (py_round x n) = true /\
  py_le (py_round x n) (py_round hi n) = true.
Proof.
  intros Hn Nlo L H. pose proof (nn_le_nn lo x Nlo L) as Nx.
  split; [apply (py_round_mono lo x n Hn Nlo L) | apply (py_round_mono x hi n Hn Nx H)].
Qed.

Lemma rounded_allocation_range s :
  py_le 10 (py_round (allocation_of_score s) 2) = true /\
  py_le (py_round (allocation_of_score s) 2) 100 = true.
Proof.
  destruct (allocation_range s) as [L H].
  exact (py_round_between _ 2 10 100 ltac:(lia) eq_refl L H).
Qed.

Lemma rounded_allocation_mono s1 s2 :
  py_le s1 s2 = true ->
  py_le (py_round (allocation_of_score s1) 2) (py_round (allocation_of_score s2) 2) = true.
Proof.
  intros L. destruct (allocation_range s1) as [L1 _].
  apply py_round_mono; [lia | exact (nn_le_nn 10 _ eq_refl L1) | now apply allocation_mono].
Qed.

Lemma confidence_bounds s :
  in01 s ->
  py_le 0.85 (py_round (0.85 + s * 0.1) 2) = true /\
  py_le (py_round (0.85 + s * 0.1) 2) 0.95 = true.
Proof.
  intros Hs. apply in01_upto in Hs.
  pose proof (upto_mul _ _ _ _ (eq_refl : fz 1) (eq_refl : fz 0.1) Hs (upto_refl 0.1 eq_refl))
    as Hm.
  pose proof (upto_fz _ _ (eq_refl : fz (1 * 0.1)) Hm) as Fm.
  apply (py_round_between _ 2 0.85 0.95 ltac:(lia) eq_refl).
  - change 0.85%float with (0.85 + 0)%float at 1.
    apply add_le_mono; try assumption; try reflexivity.
    apply nn_le_0, Hm.
  - change 0.95%float with (0.85 + 1 * 0.1)%float.
    apply add_le_mono; try assumption; try reflexivity. apply Hm.
Qed.

Lemma rounded_score_bounds p i e c :
  in01 p -> in01 i -> in01 e -> in01 c ->
  in01 (py_round (calculate_priority_python p i e c) 4).
Proof.
  intros Hp Hi He Hc.
  destruct (score_python_bounds p i e c Hp Hi He Hc) as [L H].
  exact (py_round_between _ 4 0 1 ltac:(lia) eq_refl L H).
Qed.

(** ** The module: what a call returns *)

Section Call.

Variables (h : hyperon) (p i e c : float) (out : list string).

Lemma calculate_priority_unfold :
  calculate_priority h p i e c out =
  match score_via_metta h p i e c out with
  | (Returned score, out') => (Returned (assemble_result score p i e c), out')
  | (Raised err, out') => (Raised err, out')
  end.
Proof.
  unfold calculate_priority, bind, ret.
  destruct (score_via_metta h p i e c out) as [[score|err] out']; reflexivity.
Qed.

(** The [except] clause catches whatever the [try] body raises. *)
Lemma score_via_metta_cases :
  (exists score, metta_attempt h p i e c out = (Returned score, out) /\
                 score_via_metta h p i e c out = (Returned score, out)) \/
  (exists err, metta_attempt h p i e c out = (Raised err, out) /\
               score_via_metta h p i e c out =
               (Returned (calculate_priority_python p i e c),
                out ++ ["MeTTa engine not available, using Python fallback: "
                        +:+ exn_str err])).
Proof.
  unfold score_via_metta, try_except, metta_attempt, bind, metta_run, print, ret, raise.
  destruct h as [err|err|result]; [right; eauto | right; eauto |].
  destruct (last result) as [[|[v|s] row]|]; cbn; eauto.
Qed.

Lemma score_on_fallback :
  path_taken h = PythonFallback ->
  exists out',
    score_via_metta h p i e c out = (Returned (calculate_priority_python p i e c), out').
Proof.
  unfold score_via_metta, try_except, metta_attempt, bind, metta_run, print, ret, raise,
    path_taken.
  destruct h as [err|err|result]; [eauto | eauto |].
  destruct (last result) as [[|[v|s] row]|]; cbn; intros H; try discriminate H; eauto.
Qed.

Lemma score_on_metta :
  path_taken h = MettaEngine ->
  exists result row v,
    h = RunReturns result /\ last result = Some (Numeral v :: row) /\
    score_via_metta h p i e c out = (Returned v, out).
Proof.
  unfold score_via_metta, try_except, metta_attempt, bind, metta_run, print, ret, raise,
    path_taken.
  destruct h as [err|err|result]; try discriminate.
  destruct (last result) as [[|[v|s] row]|] eqn:E; cbn; intros H; try discriminate H.
  exists result, row, v. repeat split; try reflexivity. exact E.
Qed.

(** Every call binds [priority_score] and returns the result assembled
    from it. *)
Lemma calculate_priority_returns :
  exists score out', call h p i e c out score (assemble_result score p i e c) out'.
Proof.
  unfold call. rewrite calculate_priority_unfold.
  destruct score_via_metta_cases as [(score & _ & E)|(err & _ & E)];
    rewrite E; eauto.
Qed.

End Call.

(** ** C1 *)

(** C1, as stated, fails.  A call whose MeTTa result is used and a call whose
    import of [hyperon] fails take different paths and return the same
    [engine] tag, so no reading of the tag tells which path computed the
    score. *)
Lemma engine_tag_same_on_both_paths :
  (exists r1 r2 out1 out2,
     calculate_priority (RunReturns [[Numeral 0.7]]) 0.5 0.5 0.5 0.3 [] =
       (Returned r1, out1) /\
     calculate_priority (ImportFails (Exception "No module named 'hyperon'"))
       0.5 0.5 0.5 0.3 [] = (Returned r2, out2) /\
     path_taken (RunReturns [[Numeral 0.7]]) = MettaEngine /\
     path_taken (ImportFails (Exception "No module named 'hyperon'")) = PythonFallback /\
     engine r1 = "metta_local" /\ engine r2 = "metta_local") /\
  ~ (exists path_of_tag : string -> score_path,
       forall h r out',
         calculate_priority h 0.5 0.5 0.5 0.3 [] = (Returned r, out') ->
         path_of_tag (engine r) = path_taken h).
Proof.
  split.
  - eexists _, _, _, _. repeat split; reflexivity.
  - intros (f & Hf).
    pose proof (Hf (RunReturns [[Numeral 0.7]]) _ _ eq_refl) as H1.
    pose proof (Hf (ImportFails (Exception "No module named 'hyperon'")) _ _ eq_refl) as H2.
    cbn in H1, H2. congruence.
Qed.

(** C1, amended: for every input and whichever path computed the score
    (every behaviour [h] of the MeTTa run), the [engine] field of the result
    a call returns is the constant tag ["metta_local"]. *)
Theorem engine_is_metta_local h p i e c out :
  exists score r out',
    call h p i e c out score r out' /\ engine r = "metta_local".
Proof.
  destruct (calculate_priority_returns h p i e c out) as (score & out' & E).
  exists score, (assemble_result score p i e c), out'. split; [exact E | reflexivity].
Qed.

(** ** C2 *)

(** C2: for four inputs in [0,1] and a score computed by the Python fallback,
    the unrounded score is the weighted sum, the returned [priority_score] is
    that value rounded to 4 decimals, and it lies in [0,1]. *)
Theorem fallback_score_formula h p i e c out :
  path_taken h = PythonFallback ->
  in01 p -> in01 i -> in01 e -> in01 c ->
  exists r out',
    call h p i e c out (weighted_sum p i e c) r out' /\
    priority_score r = py_round (weighted_sum p i e c) 4 /\
    py_le 0 (priority_score r) = true /\ py_le (priority_score r) 1 = true.
Proof.
  intros Hpath Hp Hi He Hc.
  destruct (score_on_fallback h p i e c out Hpath) as (out' & E).
  exists (assemble_result (weighted_sum p i e c) p i e c), out'.
  change (weighted_sum p i e c) with (calculate_priority_python p i e c).
  split; [|split; [reflexivity|]].
  - split; [exact E|]. rewrite calculate_priority_unfold, E. reflexivity.
  - exact (rounded_score_bounds p i e c Hp Hi He Hc).
Qed.

Lemma fallback_score_formula_witness :
  exists r out',
    call (ImportFails (Exception "No module named 'hyperon'")) 0.8 0.6 0.5 0.2 []
      (weighted_sum 0.8 0.6 0.5 0.2) r out' /\
    priority_score r = py_round (weighted_sum 0.8 0.6 0.5 0.2) 4 /\
    py_le 0 (priority_score r) = true /\ py_le (priority_score r) 1 = true.
Proof.
  apply (fallback_score_formula
           (ImportFails (Exception "No module named 'hyperon'")) 0.8 0.6 0.5 0.2 []);
    [reflexivity | split; reflexivity ..].
Defined.

(** ** C3 *)

(** C3: the level is decided by the thresholds 0.7, 0.5 and 0.3, tried from
    the highest, each with a closed lower bound; a score of exactly 0.7 is
    critical, exactly 0.5 high, exactly 0.3 medium; and this is the level a
    call returns for the score it computed. *)
Theorem level_thresholds :
  (forall s,
     (py_ge s 0.7 = true -> level_of_score s = "critical") /\
     (py_ge s 0.7 = false -> py_ge s 0.5 = true -> level_of_score s = "high") /\
     (py_ge s 0.7 = false -> py_ge s 0.5 = false -> py_ge s 0.3 = true ->
      level_of_score s = "medium") /\
     (py_ge s 0.7 = false -> py_ge s 0.5 = false -> py_ge s 0.3 = false ->
      level_of_score s = "low")) /\
  level_of_score 0.7 = "critical" /\
  level_of_score 0.5 = "high" /\
  level_of_score 0.3 = "medium" /\
  level_of_score 0.69999 = "high" /\
  (forall h p i e c out,
     exists score r out',
       call h p i e c out score r out' /\
       priority_level r = level_of_score score).
Proof.
  split; [|repeat split; try reflexivity].
  - intros s. unfold level_of_score.
    repeat split; intros; repeat match goal with H : _ = _ |- _ => rewrite H end;
      reflexivity.
  - intros h p i e c out.
    destruct (calculate_priority_returns h p i e c out) as (score & out' & E).
    exists score, (assemble_result score p i e c), out'. split; [exact E | reflexivity].
Qed.

(** ** C4 *)

(** C4: a call always returns a result; when the [try] body raises, whatever
    the exception, the score is the one of the Python formula and one line is
    printed. *)
Theorem calculate_priority_always_succeeds h p i e c out :
  exists r out',
    calculate_priority h p i e c out = (Returned r, out') /\
    (forall err out1,
       metta_attempt h p i e c out = (Raised err, out1) ->
       r = assemble_result (calculate_priority_python p i e c) p i e c /\
       out' = out1 ++ ["MeTTa engine not available, using Python fallback: "
                       +:+ exn_str err]).
Proof.
  destruct (score_via_metta_cases h p i e c out)
    as [(score & A & E)|(err & A & E)].
  - exists (assemble_result score p i e c), out. split.
    + rewrite calculate_priority_unfold, E. reflexivity.
    + intros err out1 H. rewrite A in H. discriminate H.
  - eexists _, _. split.
    + rewrite calculate_priority_unfold, E. reflexivity.
    + intros err' out1 H. rewrite A in H. injection H as -> ->. split; reflexivity.
Qed.

(** ** C5 *)

Lemma findings_balanced_flags p i e c :
  In balanced_finding (generate_key_findings p i e c) <->
  py_ge p 0.7 = false /\ py_ge i 0.7 = false /\ py_ge e 0.7 = false /\
  py_ge c 0.6 = false /\ py_le c 0.3 = false.
Proof.
  unfold generate_key_findings, balanced_finding.
  destruct (py_ge p 0.7), (py_ge i 0.7), (py_ge e 0.7), (py_ge c 0.6), (py_le c 0.3);
    cbn; intuition (try discriminate; try congruence).
Qed.

Lemma findings_balanced_alone p i e c :
  In balanced_finding (generate_key_findings p i e c) ->
  generate_key_findings p i e c = [balanced_finding].
Proof.
  intros H. apply findings_balanced_flags in H as (Hp & Hi & He & Hc & Hc').
  unfold generate_key_findings. rewrite Hp, Hi, He, Hc, Hc'. reflexivity.
Qed.

(** C5: for inputs that are numbers, the findings a call returns are those of
    [generate_key_findings]; the balanced-conditions finding is in the list
    exactly when poverty, impact and environmental score are below 0.7 and
    the corruption risk is strictly between 0.3 and 0.6; and then it is the
    only finding. *)
Theorem balanced_finding_iff h p i e c out :
  is_nan p = false -> is_nan i = false -> is_nan e = false -> is_nan c = false ->
  exists score r out',
    call h p i e c out score r out' /\
    key_findings r = generate_key_findings p i e c /\
    (In balanced_finding (key_findings r) <->
     py_lt p 0.7 = true /\ py_lt i 0.7 = true /\ py_lt e 0.7 = true /\
     py_gt c 0.3 = true /\ py_lt c 0.6 = true) /\
    (In balanced_finding (key_findings r) -> key_findings r = [balanced_finding]).
Proof.
  intros Np Ni Ne Nc.
  destruct (calculate_priority_returns h p i e c out) as (score & out' & E).
  exists score, (assemble_result score p i e c), out'.
  split; [exact E|]. split; [reflexivity|].
  cbn [key_findings assemble_result]. split; [|apply findings_balanced_alone].
  rewrite findings_balanced_flags. unfold py_gt.
  fold (py_lt 0.3 c).
  rewrite (lt_not_le p 0.7 Np eq_refl), (lt_not_le i 0.7 Ni eq_refl),
    (lt_not_le e 0.7 Ne eq_refl), (lt_not_le 0.3 c eq_refl Nc),
    (lt_not_le c 0.6 Nc eq_refl).
  rewrite !negb_true_iff. unfold py_ge, py_le. tauto.
Qed.

Lemma balanced_finding_iff_witness :
  exists score r out',
    call (ImportFails (Exception "No module named 'hyperon'")) 0.5 0.5 0.5 0.5 []
      score r out' /\
    key_findings r = generate_key_findings 0.5 0.5 0.5 0.5 /\
    (In balanced_finding (key_findings r) <->
     py_lt 0.5 0.7 = true /\ py_lt 0.5 0.7 = true /\ py_lt 0.5 0.7 = true /\
     py_gt 0.5 0.3 = true /\ py_lt 0.5 0.6 = true) /\
    (In balanced_finding (key_findings r) -> key_findings r = [balanced_finding]).
Proof.
  apply (balanced_finding_iff
           (ImportFails (Exception "No module named 'hyperon'")) 0.5 0.5 0.5 0.5 []);
    reflexivity.
Defined.

(** ** C6 *)

(** C6: the recommendations are the two items of the band the allocation
    selects (70 and over, else 50 and over, else the rest), then the items of
    poverty, impact, environmental score and corruption risk, in that order,
    each present when its metric reaches its threshold; nothing is removed.
    In a call the allocation that selects the band is the one computed from
    the score, before it is rounded. *)
Theorem recommendations_structure :
  (forall level allocation p i e c,
     generate_recommendations level allocation p i e c =
       allocation_band allocation
       ++ triggered p 0.7 poverty_items
       ++ triggered i 0.7 impact_items
       ++ triggered e 0.7 environmental_items
       ++ triggered c 0.6 corruption_items) /\
  (forall allocation, length (allocation_band allocation) = 2%nat) /\
  length poverty_items = 2%nat /\ length impact_items = 1%nat /\
  length environmental_items = 2%nat /\ length corruption_items = 2%nat /\
  (forall h p i e c out,
     exists score r out',
       call h p i e c out score r out' /\
       recommendations r =
         generate_recommendations (level_of_score score) (allocation_of_score score)
           p i e c).
Proof.
  repeat split.
  - intros level allocation p i e c.
    unfold generate_recommendations, allocation_band, triggered.
    destruct (py_ge allocation 70), (py_ge allocation 50),
      (py_ge p 0.7), (py_ge i 0.7), (py_ge e 0.7), (py_ge c 0.6); reflexivity.
  - intros allocation. unfold allocation_band.
    destruct (py_ge allocation 70), (py_ge allocation 50); reflexivity.
  - intros h p i e c out.
    destruct (calculate_priority_returns h p i e c out) as (score & out' & E).
    exists score, (assemble_result score p i e c), out'. split; [exact E | reflexivity].
Qed.

(** ** C7 *)

Lemma with_defaults_lookup (data : gmap string float) k d :
  DEFAULTS !! k = Some d -> with_defaults data !! k = Some (default d (data !! k)).
Proof.
  intros H. unfold with_defaults. rewrite lookup_union, H.
  destruct (data !! k); reflexivity.
Qed.

(** C7: the adapter called with an empty mapping returns what
    [calculate_priority] returns for (0.5, 0.5, 0.5, 0.3); for every mapping
    it forwards the mapping completed with the defaults of the missing keys. *)
Theorem adapter_defaults h :
  get_priority_calculation h ∅ = calculate_priority h 0.5 0.5 0.5 0.3 /\
  (forall data : gmap string float,
     get_priority_calculation h data = forward h (with_defaults data)) /\
  (forall data : gmap string float,
     get_priority_calculation h data =
       calculate_priority h
         (default 0.5%float (data !! "poverty_index"))
         (default 0.5%float (data !! "project_impact"))
         (default 0.5%float (data !! "environmental_score"))
         (default 0.3%float (data !! "corruption_risk"))).
Proof.
  split; [|split].
  - unfold get_priority_calculation. rewrite !lookup_empty. reflexivity.
  - intros data. unfold forward.
    rewrite (with_defaults_lookup data "poverty_index" 0.5 eq_refl),
      (with_defaults_lookup data "project_impact" 0.5 eq_refl),
      (with_defaults_lookup data "environmental_score" 0.5 eq_refl),
      (with_defaults_lookup data "corruption_risk" 0.3 eq_refl).
    reflexivity.
  - reflexivity.
Qed.

(** ** C8 *)

(** C8: the allocation of a score is [clamp(score * 100, 10, 100)]; it lies
    in [10, 100] and does not decrease when the score grows; 0.05 gives 10
    and 1.0 gives 100.  The field a call returns is this allocation rounded
    to 2 decimals, and has the same two properties. *)
Theorem allocation_is_clamp :
  (forall s, is_nan s = false ->
     allocation_of_score s = clamp (s * 100) 10 100) /\
  (forall s,
     py_le 10 (allocation_of_score s) = true /\
     py_le (allocation_of_score s) 100 = true) /\
  (forall s1 s2,
     py_le s1 s2 = true ->
     py_le (allocation_of_score s1) (allocation_of_score s2) = true) /\
  allocation_of_score 0.05 = 10%float /\
  allocation_of_score 1 = 100%float /\
  (forall h p i e c out,
     exists score r out',
       call h p i e c out score r out' /\
       allocation_percentage r = py_round (allocation_of_score score) 2 /\
       py_le 10 (allocation_percentage r) = true /\
       py_le (allocation_percentage r) 100 = true) /\
  (forall s1 s2,
     py_le s1 s2 = true ->
     py_le (py_round (allocation_of_score s1) 2)
           (py_round (allocation_of_score s2) 2) = true).
Proof.
  split; [|split; [|split; [|split; [|split; [|split]]]]].
  - intros s Hs. apply clampf_clamp, mul100_not_nan, Hs.
  - apply allocation_range.
  - apply allocation_mono.
  - reflexivity.
  - reflexivity.
  - intros h p i e c out.
    destruct (calculate_priority_returns h p i e c out) as (score & out' & E).
    exists score, (assemble_result score p i e c), out'.
    split; [exact E|]. split; [reflexivity|]. apply rounded_allocation_range.
  - apply rounded_allocation_mono.
Qed.

(** ** C9 *)

(** C9: the confidence a call returns is [0.85 + 0.1 * score] rounded to 2
    decimals; for a score in [0,1] it lies in [0.85, 0.95]; a score of 0
    gives 0.85 and a score of 1 gives 0.95. *)
Theorem confidence_is_affine :
  (forall h p i e c out,
     exists score r out',
       call h p i e c out score r out' /\
       confidence_score r = py_round (0.85 + 0.1 * score) 2) /\
  (forall s,
     in01 s ->
     py_le 0.85 (py_round (0.85 + 0.1 * s) 2) = true /\
     py_le (py_round (0.85 + 0.1 * s) 2) 0.95 = true) /\
  py_round (0.85 + 0.1 * 0) 2 = 0.85%float /\
  py_round (0.85 + 0.1 * 1) 2 = 0.95%float.
Proof.
  split; [|split; [|split]].
  - intros h p i e c out.
    destruct (calculate_priority_returns h p i e c out) as (score & out' & E).
    exists score, (assemble_result score p i e c), out'. split; [exact E|].
    rewrite (float_mul_comm 0.1 score). reflexivity.
  - intros s Hs. rewrite (float_mul_comm 0.1 s). now apply confidence_bounds.
  - reflexivity.
  - reflexivity.
Qed.

(** ** C10 *)

Lemma level_of_score_cases s :
  level_of_score s = "critical" \/ level_of_score s = "high" \/
  level_of_score s = "medium" \/ level_of_score s = "low".
Proof.
  unfold level_of_score.
  destruct (py_ge s 0.7), (py_ge s 0.5), (py_ge s 0.3); auto.
Qed.

Lemma explanation_found s p i e c :
  explanations s p i e !! level_of_score s =
    Some (generate_explanation s (level_of_score s) p i e c) /\
  generate_explanation s (level_of_score s) p i e c <>
    "Priority calculated based on regional metrics.".
Proof.
  unfold generate_explanation.
  destruct (level_of_score_cases s) as [-> | [-> | [-> | ->]]];
    unfold explanations; simplify_map_eq; (split; [reflexivity | discriminate]).
Qed.

(** C10: the explanation a call returns is the template the dictionary holds
    for the level of the score, the level is one of the four keys, and the
    default string of the lookup is never returned. *)
Theorem explanation_is_a_template h p i e c out :
  exists score r out',
    call h p i e c out score r out' /\
    In (priority_level r) ["critical"; "high"; "medium"; "low"] /\
    explanations score p i e !! priority_level r = Some (explanation r) /\
    explanation r <> "Priority calculated based on regional metrics.".
Proof.
  destruct (calculate_priority_returns h p i e c out) as (score & out' & E).
  exists score, (assemble_result score p i e c), out'.
  split; [exact E|]. split.
  - cbn [priority_level assemble_result In].
    destruct (level_of_score_cases score) as [-> | [-> | [-> | ->]]]; auto.
  - apply explanation_found.
Qed.

(** * Further properties

    Behaviour of the module that the statements above leave out. *)

(** ** Floats next to a threshold *)

Lemma sub_le_mono_r x y y' :
  fz x -> fz y -> fz y' ->
  py_le y' y = true -> py_le y x = true -> py_le (x - y) (x - y') = true.
Proof.
  intros Hx Hy Hy' L1 L2.
  rewrite le_val in L1, L2 by auto using fz_nn. apply Z.leb_le in L1, L2.
  unfold val in L1, L2.
  destruct (SFsub_val (Prim2SF x) (Prim2SF y)) as [Hn Hv]; auto with floats.
  destruct (SFsub_val (Prim2SF x) (Prim2SF y')) as [Hn' Hv']; auto with floats; try lia.
  rewrite <- sub_spec in Hn, Hv, Hn', Hv'.
  rewrite le_val by assumption. apply Z.leb_le. unfold val. rewrite Hv, Hv'.
  apply RN_mono; lia.
Qed.

Lemma le_below x y my ey P :
  nn x -> Prim2SF y = S754_finite false my ey -> -1074 < ey ->
  fz P ->
  val P = Z.max ((Z.pos my - 1) * 2 ^ (ey + 2148)) ((2 ^ 53 - 1) * 2 ^ (ey - 1 + 2148)) ->
  py_le y x = false -> py_le x P = true.
Proof.
  intros Nx Ey Hey FP VP L.
  assert (Ny : nn y) by (unfold nn; rewrite Ey; reflexivity).
  rewrite le_val in L by assumption. apply Z.leb_gt in L.
  rewrite le_val by auto using fz_nn. apply Z.leb_le. rewrite VP. clear VP FP P.
  pose proof (Prim2SF_valid y) as Vy. rewrite Ey in Vy.
  apply valid_finite in Vy as (Hey2 & Hm & Hd & Hn & _). specialize (Hn Hey).
  pose proof (Prim2SF_valid x) as Vx.
  unfold val in *. rewrite Ey in L. cbn [val2] in L. unfold nn in Nx.
  assert (Hu : 0 < 2 ^ (ey + 2148)) by (apply Z.pow_pos_nonneg; lia).
  assert (Hmy : 2 ^ 52 <= Z.pos my < 2 ^ 53).
  { replace 52 with (Z.log2 (Z.pos my)) by lia.
    replace 53 with (Z.log2 (Z.pos my) + 1) by lia. exact Hm. }
  sf_cases (Prim2SF x) as [s|s| |s m e] by Nx; cbn [val2] in *.
  - apply Z.le_trans with ((Z.pos my - 1) * 2 ^ (ey + 2148)); [nia | apply Z.le_max_l].
  - exfalso. unfold INF in L.
    assert (Z.pos my * 2 ^ (ey + 2148) < 2 ^ 53 * 2 ^ 3119);
      [|rewrite <- Z.pow_add_r in *; simpl in *; lia].
    apply Z.lt_le_trans with (2 ^ 53 * 2 ^ (ey + 2148)).
    + apply Z.mul_lt_mono_pos_r; lia.
    + apply Z.mul_le_mono_nonneg_l; [lia|]. apply Z.pow_le_mono_r; lia.
  - apply valid_finite in Vx as (He & Hm' & Hd' & _ & _).
    assert (Hm53 : Z.pos m < 2 ^ 53).
    { eapply Z.lt_le_trans; [apply Hm'|]. apply Z.pow_le_mono_r; lia. }
    destruct (Z.le_gt_cases ey e) as [Hle|Hgt].
    + apply Z.le_trans with ((Z.pos my - 1) * 2 ^ (ey + 2148)); [|apply Z.le_max_l].
      replace (e + 2148) with ((e - ey) + (ey + 2148)) in * by lia.
      rewrite Z.pow_add_r in * by lia.
      assert (0 < 2 ^ (e - ey)) by (apply Z.pow_pos_nonneg; lia).
      rewrite Z.mul_assoc in *.
      apply Z.mul_le_mono_nonneg_r; [lia|].
      apply Z.mul_lt_mono_pos_r in L; lia.
    + apply Z.le_trans with ((2 ^ 53 - 1) * 2 ^ (ey - 1 + 2148)); [|apply Z.le_max_r].
      apply Z.le_trans with ((2 ^ 53 - 1) * 2 ^ (e + 2148)).
      * apply Z.mul_le_mono_nonneg_r; [apply Z.pow_nonneg; lia | lia].
      * apply Z.mul_le_mono_nonneg_l; [lia|]. apply Z.pow_le_mono_r; lia.
Qed.

(** for numbers that are not negative, [x < y] when [y <= x] fails *)
Lemma not_le_le x y : nn x -> nn y -> py_le y x = false -> py_le x y = true.
Proof.
  intros Nx Ny. rewrite !le_val by assumption. rewrite Z.leb_gt, Z.leb_le. lia.
Qed.

Lemma allocation_nn s : nn (allocation_of_score s).
Proof. exact (nn_le_nn 10 _ eq_refl (proj1 (allocation_range s))). Qed.

(** the allocation of a score that does not reach [t] is at most the one of [t] *)
Lemma allocation_below s t :
  nn t -> py_le t s = false ->
  py_le (allocation_of_score s) (allocation_of_score t) = true.
Proof.
  intros Nt L.
  destruct (py_gt (s * 100) 10) eqn:G.
  - apply allocation_mono, not_le_le; [exact (gt10_mul100_nn s G) | exact Nt | exact L].
  - unfold allocation_of_score at 1. fold (clampf (s * 100)).
    rewrite (clampf_low _ G). apply allocation_range.
Qed.

(** a threshold [t] on the score is the threshold [T] on the allocation, when
    the float just below [t] has an allocation below [T] *)
Lemma allocation_threshold s t T P my ey :
  Prim2SF t = S754_finite false my ey -> -1074 < ey -> fz P ->
  val P = Z.max ((Z.pos my - 1) * 2 ^ (ey + 2148)) ((2 ^ 53 - 1) * 2 ^ (ey - 1 + 2148)) ->
  allocation_of_score t = T -> py_lt 10 T = true ->
  py_lt (allocation_of_score P) T = true ->
  py_ge (allocation_of_score s) T = py_ge s t.
Proof.
  intros Et Hey FP VP HT H10 HP.
  change (py_le T (allocation_of_score s) = py_le t s).
  assert (NT : nn T) by (rewrite <- HT; apply allocation_nn).
  destruct (py_le t s) eqn:G.
  - rewrite <- HT. now apply allocation_mono.
  - destruct (py_le T (allocation_of_score s)) eqn:L; [exfalso|reflexivity].
    pose proof (allocation_nn s) as Ns. pose proof (allocation_nn P) as NP.
    rewrite le_val in L by assumption. apply Z.leb_le in L.
    rewrite lt_val in H10, HP by (assumption || reflexivity).
    apply Z.ltb_lt in H10, HP.
    destruct (py_gt (s * 100) 10) eqn:G10.
    + pose proof (gt10_mul100_nn s G10) as N.
      pose proof (le_below s t my ey P N Et Hey FP VP G) as LP.
      apply allocation_mono in LP. rewrite le_val in LP by assumption.
      apply Z.leb_le in LP. lia.
    + unfold allocation_of_score in L at 1. fold (clampf (s * 100)) in L.
      rewrite (clampf_low _ G10) in L. lia.
Qed.

Lemma band_70 s : py_ge (allocation_of_score s) 70 = py_ge s 0.7.
Proof.
  apply (allocation_threshold s 0.7 70 below_0_7 6305039478318694 (-53));
    [reflexivity | lia | reflexivity | vm_compute; reflexivity | reflexivity ..].
Qed.

Lemma band_50 s : py_ge (allocation_of_score s) 50 = py_ge s 0.5.
Proof.
  apply (allocation_threshold s 0.5 50 below_0_5 4503599627370496 (-53));
    [reflexivity | lia | reflexivity | vm_compute; reflexivity | reflexivity ..].
Qed.

Lemma recommendations_band level allocation p i e c :
  firstn 2 (generate_recommendations level allocation p i e c) =
  allocation_band allocation.
Proof.
  unfold generate_recommendations, allocation_band.
  destruct (py_ge allocation 70), (py_ge allocation 50),
    (py_ge p 0.7), (py_ge i 0.7), (py_ge e 0.7), (py_ge c 0.6); reflexivity.
Qed.

(** X1: the band chosen from the allocation is the band of the level, for
    every float score: the recommendations of a call open with the two
    majority-of-funds items exactly when the level is critical, with the two
    substantial-funding items exactly when it is high, and with the two
    moderate-funding items when it is medium or low. *)
Theorem band_follows_level :
  (forall s, allocation_band (allocation_of_score s) = band_of_level (level_of_score s)) /\
  (forall h p i e c out,
     exists score r out',
       call h p i e c out score r out' /\
       firstn 2 (recommendations r) = band_of_level (priority_level r)).
Proof.
  assert (A : forall s,
             allocation_band (allocation_of_score s) = band_of_level (level_of_score s)).
  { intros s. unfold allocation_band, level_of_score. rewrite band_70, band_50.
    destruct (py_ge s 0.7), (py_ge s 0.5), (py_ge s 0.3); reflexivity. }
  split; [exact A|].
  intros h p i e c out.
  destruct (calculate_priority_returns h p i e c out) as (score & out' & E).
  exists score, (assemble_result score p i e c), out'. split; [exact E|].
  cbn [recommendations priority_level assemble_result].
  rewrite recommendations_band. apply A.
Qed.

(** ** Level and numeric fields *)

Lemma level_of_score_inv s :
  (level_of_score s = "critical" -> py_ge s 0.7 = true) /\
  (level_of_score s = "high" -> py_ge s 0.7 = false /\ py_ge s 0.5 = true) /\
  (level_of_score s = "medium" -> py_ge s 0.5 = false /\ py_ge s 0.3 = true) /\
  (level_of_score s = "low" -> py_ge s 0.3 = false).
Proof.
  unfold level_of_score.
  destruct (py_ge s 0.7), (py_ge s 0.5), (py_ge s 0.3);
    repeat split; intros; try reflexivity; congruence.
Qed.

Lemma ge_nn s t : nn t -> py_ge s t = true -> nn s.
Proof. intros Nt H. exact (nn_le_nn t s Nt H). Qed.

(** the fields of a score that reaches [t] *)
Lemma fields_at_least s t t4 a2 :
  nn t -> py_round t 4 = t4 -> py_round (allocation_of_score t) 2 = a2 ->
  py_ge s t = true ->
  py_le t4 (py_round s 4) = true /\
  py_le a2 (py_round (allocation_of_score s) 2) = true.
Proof.
  intros Nt <- <- H. split.
  - apply py_round_mono; [lia | exact Nt | exact H].
  - apply rounded_allocation_mono. exact H.
Qed.

(** the fields of a score that does not reach [t] *)
Lemma fields_at_most s t t4 a2 :
  nn t -> py_round t 4 = t4 -> py_round (allocation_of_score t) 2 = a2 ->
  py_ge s t = false ->
  (nn s -> py_le (py_round s 4) t4 = true) /\
  py_le (py_round (allocation_of_score s) 2) a2 = true.
Proof.
  intros Nt <- <- H. split.
  - intros Ns. apply py_round_mono; [lia | exact Ns | now apply not_le_le].
  - apply py_round_mono; [lia | apply allocation_nn | now apply allocation_below].
Qed.

Lemma rounded_0_7 :
  py_round 0.7 4 = 0.7%float /\ py_round (allocation_of_score 0.7) 2 = 70%float.
Proof. vm_compute. split; reflexivity. Qed.

Lemma rounded_0_5 :
  py_round 0.5 4 = 0.5%float /\ py_round (allocation_of_score 0.5) 2 = 50%float.
Proof. vm_compute. split; reflexivity. Qed.

Lemma rounded_0_3 :
  py_round 0.3 4 = 0.3%float /\ py_round (allocation_of_score 0.3) 2 = 30%float.
Proof. vm_compute. split; reflexivity. Qed.

(** X2: the rounded fields of a result never contradict its level: critical
    comes with a score of at least 0.7 and an allocation of at least 70,
    high with a score between 0.5 and 0.7 and an allocation between 50 and
    70, medium with a score between 0.3 and 0.5 and an allocation between 30
    and 50, low with an allocation of at most 30 and, for a score that is not
    negative, a score of at most 0.3. *)
Theorem fields_agree_with_level h p i e c out :
  exists score r out',
    call h p i e c out score r out' /\
    (priority_level r = "critical" ->
       py_le 0.7 (priority_score r) = true /\
       py_le 70 (allocation_percentage r) = true) /\
    (priority_level r = "high" ->
       py_le 0.5 (priority_score r) = true /\ py_le (priority_score r) 0.7 = true /\
       py_le 50 (allocation_percentage r) = true /\
       py_le (allocation_percentage r) 70 = true) /\
    (priority_level r = "medium" ->
       py_le 0.3 (priority_score r) = true /\ py_le (priority_score r) 0.5 = true /\
       py_le 30 (allocation_percentage r) = true /\
       py_le (allocation_percentage r) 50 = true) /\
    (priority_level r = "low" ->
       py_le (allocation_percentage r) 30 = true /\
       (py_le 0 score = true -> py_le (priority_score r) 0.3 = true)).
Proof.
  destruct (calculate_priority_returns h p i e c out) as (score & out' & E).
  exists score, (assemble_result score p i e c), out'. split; [exact E|].
  cbn [priority_level priority_score allocation_percentage assemble_result].
  destruct (level_of_score_inv score) as (Hc & Hh & Hm & Hl).
  destruct rounded_0_7 as [R7 A7], rounded_0_5 as [R5 A5], rounded_0_3 as [R3 A3].
  pose proof (fields_at_least score 0.7 _ _ eq_refl R7 A7) as L7.
  pose proof (fields_at_least score 0.5 _ _ eq_refl R5 A5) as L5.
  pose proof (fields_at_least score 0.3 _ _ eq_refl R3 A3) as L3.
  pose proof (fields_at_most score 0.7 _ _ eq_refl R7 A7) as M7.
  pose proof (fields_at_most score 0.5 _ _ eq_refl R5 A5) as M5.
  pose proof (fields_at_most score 0.3 _ _ eq_refl R3 A3) as M3.
  split; [|split; [|split]]; intros H.
  - apply Hc in H. exact (L7 H).
  - apply Hh in H as [H7 H5]. pose proof (ge_nn score 0.5 eq_refl H5) as N.
    destruct (L5 H5) as [A B]. destruct (M7 H7) as [C D]. auto.
  - apply Hm in H as [H5 H3]. pose proof (ge_nn score 0.3 eq_refl H3) as N.
    destruct (L3 H3) as [A B]. destruct (M5 H5) as [C D]. auto.
  - apply Hl in H. destruct (M3 H) as [C D]. split; [exact D|].
    intros H0. apply C. now apply le_0_nn.
Qed.

(** ** Order of the results *)

Lemma call_result h p i e c out score r out' :
  call h p i e c out score r out' -> r = assemble_result score p i e c.
Proof.
  intros [Es Er]. rewrite calculate_priority_unfold, Es in Er. congruence.
Qed.

Lemma ge_trans s1 s2 t :
  nn t -> py_ge s1 t = true -> py_le s1 s2 = true -> py_ge s2 t = true.
Proof.
  intros Nt H L. pose proof (ge_nn s1 t Nt H) as N1.
  pose proof (nn_le_nn s1 s2 N1 L) as N2.
  exact (le_trans_nn t s1 s2 Nt N1 N2 H L).
Qed.

Lemma level_rank_mono s1 s2 :
  py_le s1 s2 = true ->
  (level_rank (level_of_score s1) <= level_rank (level_of_score s2))%nat.
Proof.
  intros L.
  pose proof (fun H => ge_trans s1 s2 0.7 eq_refl H L) as T7.
  pose proof (fun H => ge_trans s1 s2 0.5 eq_refl H L) as T5.
  pose proof (fun H => ge_trans s1 s2 0.3 eq_refl H L) as T3.
  unfold level_of_score.
  destruct (py_ge s1 0.7); [rewrite (T7 eq_refl); reflexivity|].
  destruct (py_ge s1 0.5); [rewrite (T5 eq_refl); destruct (py_ge s2 0.7); vm_compute; lia|].
  destruct (py_ge s1 0.3);
    [rewrite (T3 eq_refl); destruct (py_ge s2 0.7), (py_ge s2 0.5); vm_compute; lia|].
  destruct (py_ge s2 0.7), (py_ge s2 0.5), (py_ge s2 0.3); vm_compute; lia.
Qed.

Lemma mul_one_val x : fz x -> val (x * 1) = val x.
Proof.
  intros Fx. unfold val. rewrite mul_spec.
  destruct (SFmul_val (Prim2SF x) (Prim2SF 1)) as (_ & N & HN0 & HN & ->);
    auto with floats.
  change (val2 (Prim2SF 1)) with (2 ^ 2148) in HN.
  apply Z.mul_cancel_r in HN; [|lia]. subst N.
  rewrite RN_val2 by auto with floats.
  pose proof (val2_finz_lt_INF _ (Prim2SF_valid x) Fx). lia.
Qed.

(** a finite float times a float that is at most 1 is finite *)
Lemma mul_small_fz x w : fz x -> fz w -> py_le w 1 = true -> fz (x * w).
Proof.
  intros Fx Fw Lw.
  assert (F1 : fz 1) by reflexivity.
  pose proof (mul_nn x w Fx Fw) as Nm.
  pose proof (mul_nn x 1 Fx F1) as N1.
  assert (Lx : py_le x x = true) by (apply upto_refl, Fx).
  pose proof (mul_le_mono x x w 1 Fx Fx Fw F1 Lx Lw) as L.
  apply (le_fz (x * w) x Nm Fx).
  rewrite le_val in L |- * by auto using fz_nn. apply Z.leb_le in L. apply Z.leb_le.
  rewrite mul_one_val in L by assumption. exact L.
Qed.

Lemma le_infinity x : nn x -> py_le x infinity = true.
Proof.
  intros Nx. rewrite le_val by (assumption || reflexivity). apply Z.leb_le.
  now apply val_le_INF.
Qed.

Lemma confidence_arg_mono s1 s2 :
  nn s1 -> py_le s1 s2 = true ->
  nn (0.85 + s1 * 0.1) /\ py_le (0.85 + s1 * 0.1) (0.85 + s2 * 0.1) = true.
Proof.
  intros N1 L. pose proof (nn_le_nn s1 s2 N1 L) as N2.
  assert (F85 : fz 0.85) by reflexivity. assert (F01 : fz 0.1) by reflexivity.
  assert (A : forall s, fz s -> fz (s * 0.1) /\ nn (0.85 + s * 0.1)).
  { intros s Fs. pose proof (mul_small_fz s 0.1 Fs F01 eq_refl) as Fm.
    split; [exact Fm | now apply add_nn]. }
  destruct (nn_fz_or_inf s2 N2) as [F2| ->].
  - pose proof (le_fz s1 s2 N1 F2 L) as F1.
    destruct (A s1 F1) as [Fm1 Na1], (A s2 F2) as [Fm2 Na2].
    split; [exact Na1|].
    apply add_le_mono; [exact F85 | exact F85 | exact Fm1 | exact Fm2 | reflexivity |].
    apply mul_le_mono; [exact F1 | exact F2 | exact F01 | exact F01 | exact L | reflexivity].
  - assert (E : (0.85 + infinity * 0.1 = infinity)%float) by reflexivity.
    assert (Na1 : nn (0.85 + s1 * 0.1)).
    { destruct (nn_fz_or_inf s1 N1) as [F1| ->]; [apply (A s1 F1)|].
      rewrite E. reflexivity. }
    split; [exact Na1|]. rewrite E. now apply le_infinity.
Qed.

(** X3: of two calls, the one that computed the greater score returns the
    level of greater or equal rank and the greater or equal allocation; when
    the smaller score is not negative it also returns the greater or equal
    rounded score and confidence. *)
Theorem result_monotone_in_score
    h1 p1 i1 e1 c1 out1 s1 r1 out1' h2 p2 i2 e2 c2 out2 s2 r2 out2' :
  call h1 p1 i1 e1 c1 out1 s1 r1 out1' ->
  call h2 p2 i2 e2 c2 out2 s2 r2 out2' ->
  py_le s1 s2 = true ->
  (level_rank (priority_level r1) <= level_rank (priority_level r2))%nat /\
  py_le (allocation_percentage r1) (allocation_percentage r2) = true /\
  (py_le 0 s1 = true ->
   py_le (priority_score r1) (priority_score r2) = true /\
   py_le (confidence_score r1) (confidence_score r2) = true).
Proof.
  intros C1 C2 L.
  rewrite (call_result _ _ _ _ _ _ _ _ _ C1), (call_result _ _ _ _ _ _ _ _ _ C2).
  cbn [priority_level priority_score allocation_percentage confidence_score
       assemble_result].
  split; [now apply level_rank_mono|]. split; [now apply rounded_allocation_mono|].
  intros H0. apply le_0_nn in H0. split.
  - apply py_round_mono; [lia | exact H0 | exact L].
  - destruct (confidence_arg_mono s1 s2 H0 L) as [Na La].
    apply py_round_mono; [lia | exact Na | exact La].
Qed.

Lemma result_monotone_in_score_witness :
  (level_rank (priority_level (assemble_result 0.4 0.5 0.5 0.5 0.5)) <=
   level_rank (priority_level (assemble_result 0.6 0.5 0.5 0.5 0.5)))%nat /\
  py_le (allocation_percentage (assemble_result 0.4 0.5 0.5 0.5 0.5))
        (allocation_percentage (assemble_result 0.6 0.5 0.5 0.5 0.5)) = true /\
  (py_le 0 0.4 = true ->
   py_le (priority_score (assemble_result 0.4 0.5 0.5 0.5 0.5))
         (priority_score (assemble_result 0.6 0.5 0.5 0.5 0.5)) = true /\
   py_le (confidence_score (assemble_result 0.4 0.5 0.5 0.5 0.5))
         (confidence_score (assemble_result 0.6 0.5 0.5 0.5 0.5)) = true).
Proof.
  exact (result_monotone_in_score
           (RunReturns [[Numeral 0.4]]) 0.5 0.5 0.5 0.5 [] 0.4
           (assemble_result 0.4 0.5 0.5 0.5 0.5) []
           (RunReturns [[Numeral 0.6]]) 0.5 0.5 0.5 0.5 [] 0.6
           (assemble_result 0.6 0.5 0.5 0.5 0.5) []
           (conj eq_refl eq_refl) (conj eq_refl eq_refl) eq_refl).
Defined.

(** ** The fallback formula *)

Lemma score_terms p i e c :
  in01 p -> in01 i -> in01 e -> in01 c ->
  fz p /\ fz i /\ fz e /\ fz c /\ fz (1 - c) /\
  fz (p * 0.4) /\ fz (i * 0.3) /\ fz (e * 0.2) /\ fz ((1 - c) * 0.1) /\
  fz (p * 0.4 + i * 0.3) /\ fz (p * 0.4 + i * 0.3 + e * 0.2) /\
  upto (calculate_priority_python p i e c) weights_total.
Proof.
  intros Hp Hi He Hc.
  apply in01_upto in Hp, Hi, He, Hc. pose proof (upto_one_minus c Hc) as Hc1.
  assert (F1 : fz 1) by reflexivity.
  pose proof (upto_mul _ _ _ _ F1 (eq_refl : fz 0.4) Hp (upto_refl 0.4 eq_refl)) as H1.
  pose proof (upto_mul _ _ _ _ F1 (eq_refl : fz 0.3) Hi (upto_refl 0.3 eq_refl)) as H2.
  pose proof (upto_mul _ _ _ _ F1 (eq_refl : fz 0.2) He (upto_refl 0.2 eq_refl)) as H3.
  pose proof (upto_mul _ _ _ _ F1 (eq_refl : fz 0.1) Hc1 (upto_refl 0.1 eq_refl)) as H4.
  pose proof (upto_add _ _ _ _ (eq_refl : fz (1 * 0.4)) (eq_refl : fz (1 * 0.3)) H1 H2) as H12.
  pose proof (upto_add _ _ _ _ (eq_refl : fz (1 * 0.4 + 1 * 0.3)) (eq_refl : fz (1 * 0.2))
                H12 H3) as H123.
  pose proof (upto_add _ _ _ _ (eq_refl : fz (1 * 0.4 + 1 * 0.3 + 1 * 0.2))
                (eq_refl : fz (1 * 0.1)) H123 H4) as H1234.
  split; [exact (upto_fz _ _ F1 Hp)|]. split; [exact (upto_fz _ _ F1 Hi)|].
  split; [exact (upto_fz _ _ F1 He)|]. split; [exact (upto_fz _ _ F1 Hc)|].
  split; [exact (upto_fz _ _ F1 Hc1)|].
  split; [exact (upto_fz _ (1 * 0.4) eq_refl H1)|].
  split; [exact (upto_fz _ (1 * 0.3) eq_refl H2)|].
  split; [exact (upto_fz _ (1 * 0.2) eq_refl H3)|].
  split; [exact (upto_fz _ (1 * 0.1) eq_refl H4)|].
  split; [exact (upto_fz _ (1 * 0.4 + 1 * 0.3) eq_refl H12)|].
  split; [exact (upto_fz _ (1 * 0.4 + 1 * 0.3 + 1 * 0.2) eq_refl H123)|].
  exact H1234.
Qed.

(** X4: for inputs in [0,1], the fallback score does not decrease when the
    poverty index, the project impact or the environmental score grows, nor
    when the corruption risk falls. *)
Theorem fallback_score_monotone p i e c p' i' e' c' :
  in01 p -> in01 i -> in01 e -> in01 c ->
  in01 p' -> in01 i' -> in01 e' -> in01 c' ->
  py_le p p' = true -> py_le i i' = true -> py_le e e' = true -> py_le c' c = true ->
  py_le (calculate_priority_python p i e c) (calculate_priority_python p' i' e' c') = true.
Proof.
  intros Hp Hi He Hc Hp' Hi' He' Hc' Lp Li Le Lc.
  destruct (score_terms p i e c Hp Hi He Hc)
    as (Fp & Fi & Fe & Fc & Fc1 & T1 & T2 & T3 & T4 & T12 & T123 & _).
  destruct (score_terms p' i' e' c' Hp' Hi' He' Hc')
    as (Fp' & Fi' & Fe' & Fc' & Fc1' & T1' & T2' & T3' & T4' & T12' & T123' & _).
  assert (F1 : fz 1) by reflexivity.
  assert (F4 : fz 0.4) by reflexivity. assert (F3 : fz 0.3) by reflexivity.
  assert (F2 : fz 0.2) by reflexivity. assert (F0 : fz 0.1) by reflexivity.
  unfold calculate_priority_python.
  apply add_le_mono; [exact T123 | exact T123' | exact T4 | exact T4' | |].
  - apply add_le_mono; [exact T12 | exact T12' | exact T3 | exact T3' | |].
    + apply add_le_mono; [exact T1 | exact T1' | exact T2 | exact T2' | |].
      * apply mul_le_mono; [exact Fp | exact Fp' | exact F4 | exact F4 | exact Lp | reflexivity].
      * apply mul_le_mono; [exact Fi | exact Fi' | exact F3 | exact F3 | exact Li | reflexivity].
    + apply mul_le_mono; [exact Fe | exact Fe' | exact F2 | exact F2 | exact Le | reflexivity].
  - apply mul_le_mono; [exact Fc1 | exact Fc1' | exact F0 | exact F0 | | reflexivity].
    apply sub_le_mono_r; [exact F1 | exact Fc | exact Fc' | exact Lc | apply Hc].
Qed.

Lemma fallback_score_monotone_witness :
  py_le (calculate_priority_python 0.2 0.5 0.5 0.4)
        (calculate_priority_python 0.8 0.5 0.5 0.1) = true.
Proof.
  apply (fallback_score_monotone 0.2 0.5 0.5 0.4 0.8 0.5 0.5 0.1);
    first [reflexivity | split; reflexivity].
Defined.

Lemma lt_trans_le x y z :
  nn x -> nn y -> nn z -> py_le x y = true -> py_lt y z = true -> py_lt x z = true.
Proof.
  intros Nx Ny Nz. rewrite !lt_val, le_val by assumption.
  rewrite Z.leb_le, !Z.ltb_lt. lia.
Qed.

(** X5: when the Python formula computes the score from inputs in [0,1], the
    score is at most 0.99999999999999989, the float the four weights add up
    to, so the allocation stays strictly below 100 before it is rounded: it
    is [max(10, score * 100)], and the upper bound of line 93 is not
    reached. *)
Theorem fallback_allocation_below_100 h p i e c out :
  path_taken h = PythonFallback ->
  in01 p -> in01 i -> in01 e -> in01 c ->
  exists score r out',
    call h p i e c out score r out' /\
    py_le score 0.99999999999999989 = true /\
    py_lt (allocation_of_score score) 100 = true /\
    allocation_of_score score = py_max 10 (score * 100) /\
    allocation_percentage r = py_round (py_max 10 (score * 100)) 2.
Proof.
  intros Hpath Hp Hi He Hc.
  destruct (score_on_fallback h p i e c out Hpath) as (out' & E).
  set (score := calculate_priority_python p i e c) in *.
  exists score, (assemble_result score p i e c), out'.
  destruct (score_terms p i e c Hp Hi He Hc)
    as (_ & _ & _ & _ & _ & _ & _ & _ & _ & _ & _ & U).
  fold score in U. destruct U as [Ns Ls].
  assert (Fs : fz score) by (apply (le_fz score weights_total Ns eq_refl Ls)).
  assert (Lm : py_lt (score * 100) 100 = true).
  { apply (lt_trans_le _ (weights_total * 100) 100);
      [apply mul_nn; [exact Fs | reflexivity] | reflexivity | reflexivity | | reflexivity].
    apply mul_le_mono;
      [exact Fs | reflexivity | reflexivity | reflexivity | exact Ls | reflexivity]. }
  assert (A : allocation_of_score score = py_max 10 (score * 100)).
  { unfold allocation_of_score, py_min.
    assert (G : py_lt (py_max 10 (score * 100)) 100 = true)
      by (unfold py_max; destruct (py_gt (score * 100) 10); [exact Lm | reflexivity]).
    rewrite G. reflexivity. }
  split; [split; [exact E | rewrite calculate_priority_unfold, E; reflexivity]|].
  split; [exact Ls|]. split; [|split].
  - rewrite A. unfold py_max. destruct (py_gt (score * 100) 10); [exact Lm | reflexivity].
  - exact A.
  - cbn [allocation_percentage assemble_result]. rewrite A. reflexivity.
Qed.

Lemma fallback_allocation_below_100_witness :
  exists score r out',
    call (ImportFails (Exception "No module named 'hyperon'")) 1 1 1 0 [] score r out' /\
    py_le score 0.99999999999999989 = true /\
    py_lt (allocation_of_score score) 100 = true /\
    allocation_of_score score = py_max 10 (score * 100) /\
    allocation_percentage r = py_round (py_max 10 (score * 100)) 2.
Proof.
  apply (fallback_allocation_below_100
           (ImportFails (Exception "No module named 'hyperon'")) 1 1 1 0 []);
    first [reflexivity | split; reflexivity].
Defined.

(** ** Decimals *)

Lemma py_round_is_decimal x n lo hi :
  (n <= 323)%nat -> nn lo -> 0 < val lo -> fz hi ->
  py_le lo x = true -> py_le x hi = true ->
  exists k, decimal_of lo n <= k <= decimal_of hi n /\
            py_round x n = float_of_decimal k n.
Proof.
  intros Hn Nlo Plo Fhi L H.
  pose proof (nn_le_nn lo x Nlo L) as Nx.
  pose proof (le_fz x hi Nx Fhi H) as Fx.
  destruct (round_decimal x n Fx) as [[_ E] | E].
  - exfalso. rewrite le_val in L by assumption. apply Z.leb_le in L. lia.
  - exists (decimal_of x n). split; [|exact E].
    split; apply decimal_of_mono; auto using fz_nn.
Qed.

Lemma py_round_is_decimal_from_0 x n hi :
  (n <= 323)%nat -> nn x -> fz hi -> py_le x hi = true ->
  exists k, 0 <= k <= decimal_of hi n /\
            (py_round x n = float_of_decimal k n \/ py_round x n = neg_zero).
Proof.
  intros Hn Nx Fhi H.
  pose proof (le_fz x hi Nx Fhi H) as Fx.
  destruct (round_decimal x n Fx) as [[-> E] | E].
  - exists 0. split; [split; [lia | apply decimal_of_nonneg]|].
    pose proof (Prim2SF_valid x) as Vx. unfold val in E. unfold fz in Fx.
    destruct (Prim2SF x) as [[|]|s| |s m e] eqn:Ex; try discriminate Fx.
    + right. apply Prim2SF_inj. rewrite Ex. reflexivity.
    + left. apply Prim2SF_inj. rewrite Ex. reflexivity.
    + pose proof (val2_finite_lt_INF s m e Vx). lia.
  - exists (decimal_of x n). split; [|left; exact E].
    split; [apply decimal_of_nonneg | apply decimal_of_mono; auto using fz_nn].
Qed.

Lemma decimal_literals :
  (float_of_decimal 1000 2 = 10 /\ float_of_decimal 10000 2 = 100 /\
   float_of_decimal 85 2 = 0.85 /\ float_of_decimal 90 2 = 0.9 /\
   float_of_decimal 95 2 = 0.95 /\ float_of_decimal 10000 4 = 1)%float.
Proof. vm_compute. repeat split; reflexivity. Qed.

Lemma decimal_bounds :
  decimal_of 10 2 = 1000 /\ decimal_of 100 2 = 10000 /\
  decimal_of 0.85 2 = 85 /\ decimal_of 0.95 2 = 95 /\ decimal_of 1 4 = 10000.
Proof. vm_compute. repeat split; reflexivity. Qed.

(** X6: the allocation a call returns is the float nearest to [k / 100] for
    an integer [k] between 1000 and 10000; for a score in [0,1] the
    confidence is the float nearest to one of the eleven decimals 0.85, 0.86,
    ..., 0.95, and the rounded score the float nearest to [k / 10000] for an
    integer [k] between 0 and 10000 (or the negative zero, when the score is
    the negative zero).  These floats are the ones the decimal literals
    denote: 1000/100 is [10.0], 85/100 is [0.85], and so on. *)
Theorem rounded_fields_are_decimals h p i e c out :
  exists score r out',
    call h p i e c out score r out' /\
    (exists k, 1000 <= k <= 10000 /\ allocation_percentage r = float_of_decimal k 2) /\
    (in01 score ->
     (exists k, 85 <= k <= 95 /\ confidence_score r = float_of_decimal k 2) /\
     (exists k, 0 <= k <= 10000 /\
        (priority_score r = float_of_decimal k 4 \/ priority_score r = neg_zero))) /\
    (float_of_decimal 1000 2 = 10 /\ float_of_decimal 10000 2 = 100 /\
     float_of_decimal 85 2 = 0.85 /\ float_of_decimal 90 2 = 0.9 /\
     float_of_decimal 95 2 = 0.95 /\ float_of_decimal 10000 4 = 1)%float.
Proof.
  destruct (calculate_priority_returns h p i e c out) as (score & out' & E).
  exists score, (assemble_result score p i e c), out'. split; [exact E|].
  cbn [priority_score allocation_percentage confidence_score assemble_result].
  destruct decimal_bounds as (D10 & D100 & D85 & D95 & D1).
  split; [|split; [|exact decimal_literals]].
  - destruct (allocation_range score) as [L H].
    destruct (py_round_is_decimal (allocation_of_score score) 2 10 100)
      as (k & Hk & Ek); try assumption; try reflexivity; [lia|].
    rewrite D10, D100 in Hk. eauto.
  - intros [H0 H1]. pose proof (le_0_nn score H0) as Ns. split.
    + destruct (confidence_arg_mono 0 score eq_refl H0) as [_ L].
      destruct (confidence_arg_mono score 1 Ns H1) as [_ H].
      destruct (py_round_is_decimal (0.85 + score * 0.1) 2 0.85 0.95)
        as (k & Hk & Ek); try assumption; try reflexivity; [lia|].
      rewrite D85, D95 in Hk. eauto.
    + destruct (py_round_is_decimal_from_0 score 4 1) as (k & Hk & Ek);
        try assumption; try reflexivity; [lia|].
      rewrite D1 in Hk. eauto.
Qed.

(** ** Factors *)

(** X7: whichever path computed the score, the [factors] of a result are
    the four terms of the Python formula, under the four keys in the order
    poverty, impact, environment, corruption; added from left to right they
    give the unrounded fallback score; for an input in [0,1] each term lies
    between 0 and its weight. *)
Theorem factors_are_formula_terms h p i e c out :
  exists score r out',
    call h p i e c out score r out' /\
    exists f1 f2 f3 f4,
      factors r = [("poverty_index", f1); ("project_impact", f2);
                   ("environmental_score", f3); ("corruption_risk", f4)] /\
      calculate_priority_python p i e c = (f1 + f2 + f3 + f4)%float /\
      (in01 p -> py_le 0 f1 = true /\ py_le f1 0.4 = true) /\
      (in01 i -> py_le 0 f2 = true /\ py_le f2 0.3 = true) /\
      (in01 e -> py_le 0 f3 = true /\ py_le f3 0.2 = true) /\
      (in01 c -> py_le 0 f4 = true /\ py_le f4 0.1 = true).
Proof.
  destruct (calculate_priority_returns h p i e c out) as (score & out' & E).
  exists score, (assemble_result score p i e c), out'. split; [exact E|].
  eexists _, _, _, _. split; [reflexivity|]. split; [reflexivity|].
  assert (F1 : fz 1) by reflexivity.
  assert (B : forall x w, fz w -> upto x 1 ->
                py_le 0 (x * w) = true /\ py_le (x * w) (1 * w) = true).
  { intros x w Fw Hx.
    destruct (upto_mul x 1 w w F1 Fw Hx (upto_refl w Fw)) as [Hn Hl].
    split; [now apply nn_le_0 | exact Hl]. }
  repeat apply conj; intros H; apply in01_upto in H.
  - exact (B p 0.4%float eq_refl H).
  - exact (B i 0.3%float eq_refl H).
  - exact (B e 0.2%float eq_refl H).
  - exact (B (1 - c)%float 0.1%float eq_refl (upto_one_minus c H)).
Qed.

(** ** Counts *)

Lemma recommendations_app level allocation p i e c :
  generate_recommendations level allocation p i e c =
    allocation_band allocation
    ++ triggered p 0.7 poverty_items ++ triggered i 0.7 impact_items
    ++ triggered e 0.7 environmental_items ++ triggered c 0.6 corruption_items.
Proof.
  unfold generate_recommendations, allocation_band, triggered.
  destruct (py_ge allocation 70), (py_ge allocation 50),
    (py_ge p 0.7), (py_ge i 0.7), (py_ge e 0.7), (py_ge c 0.6); reflexivity.
Qed.

(** X8: a result holds between 1 and 4 findings and between 2 and 9
    recommendations; when the balanced-conditions finding is present the
    recommendations are the two items of the band and nothing else. *)
Theorem findings_and_recommendations_counts h p i e c out :
  exists score r out',
    call h p i e c out score r out' /\
    (1 <= length (key_findings r) <= 4)%nat /\
    (2 <= length (recommendations r) <= 9)%nat /\
    (In balanced_finding (key_findings r) ->
     recommendations r = allocation_band (allocation_of_score score)).
Proof.
  destruct (calculate_priority_returns h p i e c out) as (score & out' & E).
  exists score, (assemble_result score p i e c), out'. split; [exact E|].
  cbn [key_findings recommendations assemble_result].
  split; [|split].
  - unfold generate_key_findings.
    destruct (py_ge p 0.7), (py_ge i 0.7), (py_ge e 0.7), (py_ge c 0.6), (py_le c 0.3);
      cbn [length app]; lia.
  - unfold generate_recommendations.
    destruct (py_ge (allocation_of_score score) 70), (py_ge (allocation_of_score score) 50),
      (py_ge p 0.7), (py_ge i 0.7), (py_ge e 0.7), (py_ge c 0.6); cbn [length app]; lia.
  - intros H. apply findings_balanced_flags in H as (Hp & Hi & He & Hc & _).
    rewrite recommendations_app. unfold triggered. rewrite Hp, Hi, He, Hc.
    now rewrite !app_nil_r.
Qed.

(** ** What the MeTTa run returns *)

(** X9: when the fallback prints.  An empty result list of the MeTTa run
    gives the fallback result and prints nothing; an empty last row, a failed
    import and a run that raises give the fallback result and print one line
    with the message of the exception; a call prints at most that one line
    after what was printed before, and prints nothing exactly when the run
    returns an empty list or a last row that starts with a numeral. *)
Theorem fallback_line_cases p i e c out :
  calculate_priority (RunReturns []) p i e c out =
    (Returned (fallback_result p i e c), out) /\
  (forall rows,
     calculate_priority (RunReturns (rows ++ [[]])) p i e c out =
       (Returned (fallback_result p i e c),
        out ++ [fallback_line "list index out of range"])) /\
  (forall err,
     calculate_priority (ImportFails err) p i e c out =
       (Returned (fallback_result p i e c), out ++ [fallback_line (exn_str err)]) /\
     calculate_priority (RunRaises err) p i e c out =
       (Returned (fallback_result p i e c), out ++ [fallback_line (exn_str err)])) /\
  (forall h r out',
     calculate_priority h p i e c out = (Returned r, out') ->
     (out' = out \/ exists msg, out' = out ++ [fallback_line msg]) /\
     (out' = out <->
      exists result, h = RunReturns result /\
        (result = [] \/ exists v rest, last result = Some (Numeral v :: rest)))).
Proof.
  split; [reflexivity|]. split; [|split].
  - intros rows.
    unfold calculate_priority, score_via_metta, try_except, metta_attempt, bind,
      metta_run, ret. rewrite last_snoc. reflexivity.
  - intros err. split; reflexivity.
  - intros h r out' H.
    assert (Hne : forall l : string, out ++ [l] <> out).
    { intros l Hl. apply (f_equal length) in Hl. rewrite length_app in Hl.
      cbn in Hl. lia. }
    unfold calculate_priority, score_via_metta, try_except, metta_attempt, bind,
      metta_run, ret, raise, print in H.
    destruct h as [err|err|result].
    + injection H as _ <-. split; [right; eauto|].
      split; [intros Hl; now apply Hne in Hl | intros (res & Hr & _); discriminate Hr].
    + injection H as _ <-. split; [right; eauto|].
      split; [intros Hl; now apply Hne in Hl | intros (res & Hr & _); discriminate Hr].
    + destruct (last result) as [[|[v|s] rest]|] eqn:El; cbn in H; injection H as _ <-.
      * split; [right; eauto|].
        split; [intros Hl; now apply Hne in Hl|].
        intros (res & Hr & Hcase). injection Hr as <-.
        destruct Hcase as [Hn | (v & rest & Hv)];
          [subst result; discriminate El | congruence].
      * split; [now left|]. split; [|reflexivity]. intros _. eauto 6.
      * split; [right; eauto|].
        split; [intros Hl; now apply Hne in Hl|].
        intros (res & Hr & Hcase). injection Hr as <-.
        destruct Hcase as [Hn | (v & rest' & Hv)];
          [subst result; discriminate El | congruence].
      * split; [now left|]. split; [|reflexivity]. intros _.
        exists result. split; [reflexivity|]. left.
        destruct result as [|x l] using rev_ind; [reflexivity|].
        rewrite last_snoc in El. discriminate El.
Qed.

(** X10: of what the MeTTa run returns only the first atom of the last row
    is read: earlier rows and the rest of the last row do not change the
    result; when that atom is a numeral [v], nothing is printed and score,
    level, allocation and confidence are computed from [v] alone, without
    the four inputs. *)
Theorem metta_reads_last_row_first_atom rows a rest p i e c out :
  calculate_priority (RunReturns (rows ++ [a :: rest])) p i e c out =
    calculate_priority (RunReturns [[a]]) p i e c out /\
  (forall v, a = Numeral v ->
     exists r,
       calculate_priority (RunReturns (rows ++ [a :: rest])) p i e c out =
         (Returned r, out) /\
       priority_score r = py_round v 4 /\
       priority_level r = level_of_score v /\
       allocation_percentage r = py_round (allocation_of_score v) 2 /\
       confidence_score r = py_round (0.85 + v * 0.1) 2).
Proof.
  assert (A : calculate_priority (RunReturns (rows ++ [a :: rest])) p i e c out =
              calculate_priority (RunReturns [[a]]) p i e c out).
  { unfold calculate_priority, score_via_metta, try_except, metta_attempt, bind,
      metta_run, ret. rewrite last_snoc. reflexivity. }
  split; [exact A|].
  intros v ->. exists (assemble_result v p i e c). rewrite A.
  repeat split; reflexivity.
Qed.

(** ** NaN *)

Lemma nan_mul_l x y : is_nan x = true -> is_nan (x * y) = true.
Proof.
  rewrite !is_nan_Prim2SF, mul_spec. intros ->. destruct (Prim2SF y); reflexivity.
Qed.

Lemma nan_add_l x y : is_nan x = true -> is_nan (x + y) = true.
Proof.
  rewrite !is_nan_Prim2SF, add_spec. intros ->. destruct (Prim2SF y); reflexivity.
Qed.

Lemma nan_add_r x y : is_nan y = true -> is_nan (x + y) = true.
Proof.
  rewrite !is_nan_Prim2SF, add_spec. intros ->.
  destruct (Prim2SF x) as [s|s| |s m e]; reflexivity.
Qed.

Lemma nan_sub_r x y : is_nan y = true -> is_nan (x - y) = true.
Proof.
  rewrite !is_nan_Prim2SF, sub_spec. intros ->.
  destruct (Prim2SF x) as [s|s| |s m e]; reflexivity.
Qed.

Lemma nan_ge s t : is_nan s = true -> py_ge s t = false.
Proof.
  rewrite is_nan_Prim2SF. unfold py_ge. rewrite leb_spec. intros ->.
  destruct (Prim2SF t) as [s'|s'| |s' m e]; reflexivity.
Qed.

Lemma nan_gt s t : is_nan s = true -> py_gt s t = false.
Proof.
  rewrite is_nan_Prim2SF. unfold py_gt. rewrite ltb_spec. intros ->.
  destruct (Prim2SF t) as [s'|s'| |s' m e]; reflexivity.
Qed.

Lemma nan_round s n : is_nan s = true -> py_round s n = s.
Proof. rewrite is_nan_Prim2SF. unfold py_round. intros ->. reflexivity. Qed.

Lemma nan_score p i e c :
  is_nan p || is_nan i || is_nan e || is_nan c = true ->
  is_nan (calculate_priority_python p i e c) = true.
Proof.
  intros H. unfold calculate_priority_python.
  repeat (apply orb_true_iff in H as [H|H]).
  - now apply nan_add_l, nan_add_l, nan_add_l, nan_mul_l.
  - now apply nan_add_l, nan_add_l, nan_add_r, nan_mul_l.
  - now apply nan_add_l, nan_add_r, nan_mul_l.
  - now apply nan_add_r, nan_mul_l, nan_sub_r.
Qed.

(** X11: when the Python formula computes the score and one of the four
    inputs is NaN, the score and the confidence returned are NaN, the level
    is low, the allocation is 10 and the recommendations open with the
    moderate-funding band. *)
Theorem nan_input_on_fallback h p i e c out :
  path_taken h = PythonFallback ->
  is_nan p || is_nan i || is_nan e || is_nan c = true ->
  exists score r out',
    call h p i e c out score r out' /\
    is_nan score = true /\
    is_nan (priority_score r) = true /\
    priority_level r = "low" /\
    allocation_percentage r = 10%float /\
    is_nan (confidence_score r) = true /\
    firstn 2 (recommendations r) = conservative_items.
Proof.
  intros Hpath Hnan.
  destruct (score_on_fallback h p i e c out Hpath) as (out' & E).
  pose proof (nan_score p i e c Hnan) as Hs.
  set (score := calculate_priority_python p i e c) in *.
  exists score, (assemble_result score p i e c), out'.
  split; [split; [exact E | rewrite calculate_priority_unfold, E; reflexivity]|].
  assert (A : allocation_of_score score = 10%float).
  { unfold allocation_of_score. fold (clampf (score * 100)).
    apply clampf_low, nan_gt, nan_mul_l, Hs. }
  assert (L : level_of_score score = "low").
  { unfold level_of_score. now rewrite !nan_ge. }
  cbn [priority_score priority_level allocation_percentage confidence_score
       recommendations assemble_result].
  split; [exact Hs|]. split; [rewrite nan_round; exact Hs|]. split; [exact L|].
  split; [rewrite A; vm_compute; reflexivity|].
  split.
  - assert (Hc : is_nan (0.85 + score * 0.1) = true) by now apply nan_add_r, nan_mul_l.
    rewrite nan_round; exact Hc.
  - rewrite recommendations_band, A. reflexivity.
Qed.

Lemma nan_input_on_fallback_witness :
  exists score r out',
    call (ImportFails (Exception "No module named 'hyperon'")) nan 0.5 0.5 0.3 []
      score r out' /\
    is_nan score = true /\
    is_nan (priority_score r) = true /\
    priority_level r = "low" /\
    allocation_percentage r = 10%float /\
    is_nan (confidence_score r) = true /\
    firstn 2 (recommendations r) = conservative_items.
Proof.
  apply (nan_input_on_fallback
           (ImportFails (Exception "No module named 'hyperon'")) nan 0.5 0.5 0.3 []);
    reflexivity.
Defined.

(** ** The adapter *)

(** X12: the adapter reads the four metric keys and no other: inserting or
    deleting any other key does not change what it returns; a mapping that
    holds the four keys gives the call on their values; deleting the four
    keys gives the call on the defaults. *)
Theorem adapter_reads_only_its_keys h (data : gmap string float) :
  (forall k v, ~ In k METRIC_KEYS ->
     get_priority_calculation h (<[k := v]> data) = get_priority_calculation h data) /\
  (forall k, ~ In k METRIC_KEYS ->
     get_priority_calculation h (delete k data) = get_priority_calculation h data) /\
  (forall p i e c,
     get_priority_calculation h
       (<["poverty_index" := p]> (<["project_impact" := i]>
        (<["environmental_score" := e]> (<["corruption_risk" := c]> data)))) =
     calculate_priority h p i e c) /\
  get_priority_calculation h
    (delete "poverty_index" (delete "project_impact"
     (delete "environmental_score" (delete "corruption_risk" data)))) =
  calculate_priority h 0.5 0.5 0.5 0.3.
Proof.
  unfold get_priority_calculation, METRIC_KEYS.
  split; [|split; [|split]].
  - intros k v Hk. cbn [In] in Hk.
    rewrite !lookup_insert_ne
      by (intros ->; apply Hk; repeat (first [left; reflexivity | right])).
    reflexivity.
  - intros k Hk. cbn [In] in Hk.
    rewrite !lookup_delete_ne
      by (intros ->; apply Hk; repeat (first [left; reflexivity | right])).
    reflexivity.
  - intros p i e c. now simplify_map_eq.
  - now simplify_map_eq.
Qed.

(** ** The explanation *)

(** X13: for a level that is none of the four keys of the dictionary,
    [generate_explanation] returns the default text of the lookup. *)
Theorem explanation_of_unknown_level s level p i e c :
  ~ In level ["critical"; "high"; "medium"; "low"] ->
  generate_explanation s level p i e c = "Priority calculated based on regional metrics.".
Proof.
  intros Hk. cbn [In] in Hk. unfold generate_explanation, explanations.
  rewrite !lookup_insert_ne
    by (intros <-; apply Hk; repeat (first [left; reflexivity | right])).
  reflexivity.
Qed.

Lemma explanation_of_unknown_level_witness :
  generate_explanation 0.8 "urgent" 0.9 0.8 0.7 0.1 =
    "Priority calculated based on regional metrics.".
Proof.
  apply (explanation_of_unknown_level 0.8 "urgent" 0.9 0.8 0.7 0.1).
  cbn [In]. intros [H|[H|[H|[H|[]]]]]; discriminate H.
Defined.

(** ** Percentages *)

(** X14: the percentage the explanation and the findings quote for a value
    in [0,1] lies between 0.0% and 100.0%: it is the text of [k] tenths of a
    percent for an integer [k] between 0 and 1000, or the text of the
    negative zero. *)
Theorem percent_of_unit_interval x :
  in01 x ->
  exists k, 0 <= k <= 1000 /\
            (format_percent_1 x = percent_str k \/ format_percent_1 x = "-0.0%").
Proof.
  intros Hx. apply in01_upto in Hx.
  destruct (upto_mul x 1 100 100 eq_refl eq_refl Hx (upto_refl 100 eq_refl)) as [Nm Lm].
  pose proof (le_fz _ (1 * 100) Nm eq_refl Lm) as Fm.
  pose proof (decimal_of_mono (x * 100) (1 * 100) 1 Nm eq_refl Lm) as Hk.
  pose proof (decimal_of_nonneg (x * 100) 1) as Hk0.
  assert (D : decimal_of (1 * 100) 1 = 1000) by (vm_compute; reflexivity).
  rewrite D in Hk. clear D.
  unfold decimal_of, val in Hk, Hk0. unfold format_percent_1, fz in *.
  pose proof (Prim2SF_valid (x * 100)) as Vm.
  destruct (Prim2SF (x * 100)) as [[|]|s| |s m e]; try discriminate Fm.
  - exists 0. split; [lia|]. right. reflexivity.
  - exists 0. split; [lia|]. left. reflexivity.
  - cbn in Fm. apply negb_true_iff in Fm. subst s.
    apply valid_finite in Vm as (He & _).
    rewrite <- (scaled_decimal_val false) in Hk, Hk0 by lia.
    exists (scaled_decimal m e 1). split; [lia|]. left. reflexivity.
Qed.

Lemma percent_of_unit_interval_witness :
  exists k, 0 <= k <= 1000 /\
            (format_percent_1 0.856 = percent_str k \/ format_percent_1 0.856 = "-0.0%").
Proof.
  apply (percent_of_unit_interval 0.856). split; reflexivity.
Defined.
